(** * Chomsky-normal-form: a shallow embedding of [context_free_grammar.py]
    and [main.py], and the properties of the conversion pipeline.

    Python values are modelled as follows.
    - A [str] is the list of its Unicode code points.
    - A production ([list[str]]) is a list of [str]; a rule body is a list
      of productions.
    - The [rules] dictionary is an insertion-ordered association list: the
      code depends on the iteration order of [dict.items()] and on
      [list(rules.keys())[index]].
    - [variables] and [terminals] are Python sets: [gset str].
    - Grammar methods mutate the object and may raise; a procedure is a
      function from the grammar to a [result] that carries the grammar as
      it is when the exception leaves the procedure. *)

From Stdlib Require Import NArith String Ascii DecimalN.
From stdpp Require Import gmap list.

Open Scope N_scope.

(* naive_solver clears hypotheses that an earlier step already removed *)
Set Warnings "-clear-no-such-hyp".

(** ** Strings and character classes *)

Definition str := list N.
Definition production := list str.
Definition dict := list (str * list production).

(** [s "S0"] is the Python literal ['S0'] (ASCII literals only). *)
Definition s (lit : String.string) : str :=
  map N_of_ascii (list_ascii_of_string lit).

(** The marker ['ε'] is the one-character string U+03B5. *)
Definition epsilon : str := [949].

(** What [str.isupper], [str.islower] and the regular-expression class
    [\d] look at in a character.  No character is in two of the classes. *)
Inductive uclass := Upper | Lower | Title | Decimal | Other.

Definition ascii_class (c : N) : uclass :=
  if (65 <=? c) && (c <=? 90) then Upper
  else if (97 <=? c) && (c <=? 122) then Lower
  else if (48 <=? c) && (c <=? 57) then Decimal
  else Other.

Definition uclass_eqb (a b : uclass) : bool :=
  match a, b with
  | Upper, Upper | Lower, Lower | Title, Title
  | Decimal, Decimal | Other, Other => true
  | _, _ => false
  end.

(** ** Exceptions and results *)

Inductive exn := InvalidRule | ValueError | KeyError | IndexError.

Record ContextFreeGrammar := CFG {
  variables : gset str;
  terminals : gset str;
  rules : dict;
  start_variable : str
}.

(** [Val a]: normal completion.  [Exc e g]: exception [e] propagates and
    the grammar object is left as [g].  [Fuel]: the loop bound of the model
    was reached (never a behaviour of the program). *)
Inductive result (A : Type) :=
| Val (a : A)
| Exc (e : exn) (g : ContextFreeGrammar)
| Fuel.
Arguments Val {A} a.
Arguments Exc {A} e g.
Arguments Fuel {A}.

#[global] Instance result_ret : MRet result := @Val.
#[global] Instance result_bind : MBind result := fun A B f r =>
  match r with
  | Val a => f a
  | Exc e g => Exc e g
  | Fuel => Fuel
  end.

#[global] Instance result_fmap : FMap result := fun A B f r =>
  match r with
  | Val a => Val (f a)
  | Exc e g => Exc e g
  | Fuel => Fuel
  end.

(** ** Dictionaries in insertion order *)

Fixpoint dict_get (d : dict) (k : str) : option (list production) :=
  match d with
  | [] => None
  | (k', v) :: d' => if decide (k' = k) then Some v else dict_get d' k
  end.

(** [d[k] = v]: an existing key keeps its position, a new key goes last. *)
Fixpoint dict_set (d : dict) (k : str) (v : list production) : dict :=
  match d with
  | [] => [(k, v)]
  | (k', v') :: d' =>
      if decide (k' = k) then (k', v) :: d' else (k', v') :: dict_set d' k v
  end.

Definition dict_keys (d : dict) : list str := d.*1.

(** A Python [dict] has each key once. *)
Definition dict_wf (d : dict) : Prop := NoDup (dict_keys d).

Definition set_rules (g : ContextFreeGrammar) (d : dict) : ContextFreeGrammar :=
  CFG (variables g) (terminals g) d (start_variable g).
Definition set_variables (g : ContextFreeGrammar) (vs : gset str) : ContextFreeGrammar :=
  CFG vs (terminals g) (rules g) (start_variable g).
Definition set_terminals (g : ContextFreeGrammar) (ts : gset str) : ContextFreeGrammar :=
  CFG (variables g) ts (rules g) (start_variable g).
Definition set_start (g : ContextFreeGrammar) (st : str) : ContextFreeGrammar :=
  CFG (variables g) (terminals g) (rules g) st.

(** [list.remove(x)]: deletes the first element equal to [x]; [None] is
    Python's [ValueError]. *)
Fixpoint list_remove (x : production) (l : list production) : option (list production) :=
  match l with
  | [] => None
  | y :: l' => if decide (y = x) then Some l' else cons y <$> list_remove x l'
  end.

Section Unicode.

(** The class of the other code points, as the Unicode database of the
    interpreter gives it.  The class of the ASCII characters and of U+03B5
    (a lowercase letter) is fixed in [classify]. *)
Variable ucd : N → uclass.

Definition classify (c : N) : uclass :=
  if c <? 128 then ascii_class c
  else if c =? 949 then Lower
  else ucd c.

(** [str.isupper()]: no lowercase or titlecase character, and at least one
    uppercase character. *)
Definition isupper (x : str) : bool :=
  forallb (fun c => negb (uclass_eqb (classify c) Lower || uclass_eqb (classify c) Title)) x
  && existsb (fun c => uclass_eqb (classify c) Upper) x.

(** [str.islower()]: no uppercase or titlecase character, and at least one
    lowercase character. *)
Definition islower (x : str) : bool :=
  forallb (fun c => negb (uclass_eqb (classify c) Upper || uclass_eqb (classify c) Title)) x
  && existsb (fun c => uclass_eqb (classify c) Lower) x.

Definition is_decimal (c : N) : bool := uclass_eqb (classify c) Decimal.

(** [\d*], greedy: what is left of the string after the longest run of
    decimal digits. *)
Fixpoint skip_digits (x : str) : str :=
  match x with
  | c :: x' => if is_decimal c then skip_digits x' else x
  | [] => []
  end.

(** [$] without [re.MULTILINE]: at the end of the string, or just before a
    newline that is the last character. *)
Definition at_dollar (x : str) : bool :=
  match x with
  | [] => true
  | [10] => true
  | _ => false
  end.

(** [re.match(r'[A-Z]\d*$', lhs)] as a truth value.  [[A-Z]] is the range
    U+0041..U+005A; every position at which [\d*] could stop short of its
    longest run is followed by a digit, where [$] fails, so only the longest
    run is tried. *)
Definition re_match_lhs (lhs : str) : bool :=
  match lhs with
  | c :: x => (65 <=? c) && (c <=? 90) && at_dollar (skip_digits x)
  | [] => false
  end.

(** ** [ContextFreeGrammar] methods *)

(** [sort_rules]: [KeyError] when the start variable has no entry. *)
Definition sort_rules (g : ContextFreeGrammar) : result ContextFreeGrammar :=
  match dict_get (rules g) (start_variable g) with
  | None => Exc KeyError g
  | Some ps =>
      Val (set_rules g
             ((start_variable g, ps)
                :: filter (fun kv => kv.1 ≠ start_variable g) (rules g)))
  end.

(** [__init__]. *)
Definition init (vars terms : list str) (rs : dict) (start : str)
  : result ContextFreeGrammar :=
  sort_rules (CFG (list_to_set vars) (list_to_set terms) rs start).

Definition add_product (g : ContextFreeGrammar) (variable : str) (product : production)
  : ContextFreeGrammar :=
  let g := set_variables g ({[variable]} ∪ variables g) in
  match dict_get (rules g) variable with
  | Some ps =>
      if decide (product ∈ ps) then g
      else set_rules g (dict_set (rules g) variable (ps ++ [product]))
  | None => set_rules g (dict_set (rules g) variable [product])
  end.

(** The body of [for item in rhs_item]. *)
Definition scan_item (g : ContextFreeGrammar) (item : str) : ContextFreeGrammar :=
  let g :=
    if isupper item && bool_decide (item ∉ variables g)
    then set_variables g ({[item]} ∪ variables g) else g in
  if islower item || bool_decide (item = epsilon)
  then set_terminals g ({[item]} ∪ terminals g) else g.

(** The body of [for rhs_item in rhs]. *)
Definition add_rule_item (lhs : str) (g : ContextFreeGrammar) (rhs_item : production)
  : ContextFreeGrammar :=
  add_product (foldl scan_item g rhs_item) lhs rhs_item.

(** [add_rule].  [rhs] is passed by value: at every call in the program it
    is a fresh list or the body of another variable than [lhs]. *)
Definition add_rule (g : ContextFreeGrammar) (lhs : str) (rhs : list production)
  : result ContextFreeGrammar :=
  if negb (re_match_lhs lhs) then Exc InvalidRule g
  else Val (foldl (add_rule_item lhs) g rhs).

End Unicode.

(** [sep.join(l)] *)
Fixpoint join (sep : str) (l : list str) : str :=
  match l with
  | [] => []
  | [x] => x
  | x :: l' => x ++ sep ++ join sep l'
  end.

(** One line of [__repr__]: [f"{variable} → {'|'.join(right_hand_side)}"],
    where [right_hand_side] holds [''.join(item)] for each production. *)
Definition repr_line (kv : str * list production) : str :=
  kv.1 ++ [32; 8594; 32] ++ join [124] ((fun item : production => concat item) <$> kv.2).

(** [__repr__] *)
Definition repr (g : ContextFreeGrammar) : str :=
  join [10] (repr_line <$> rules g).

(** ** [main.py] *)

Section Pipeline.

Variable ucd : N → uclass.

(** [[i for i, x in enumerate(item) if x == variable]] *)
Definition indices (item : production) (variable : str) : list nat :=
  (filter (fun ix => ix.2 = variable) (imap (fun i x => (i, x)) item)).*1.

(** [itertools.product([0, 1], repeat=n)], in the order it yields. *)
Fixpoint product01 (n : nat) : list (list bool) :=
  match n with
  | O => [[]]
  | S n' => (cons false <$> product01 n') ++ (cons true <$> product01 n')
  end.

(** [new_list] after the loop over [zip(indices, combination)]. *)
Definition blank_out (item : production) (idxs : list nat) (combination : list bool)
  : list (option str) :=
  foldl (fun new_list ic => if ic.2 : bool then new_list else <[ic.1 := None]> new_list)
        (Some <$> item) (zip idxs combination).

(** One result for each combination, in order; an empty result is
    replaced by [['ε']]. *)
Definition generate_combinations (item : production) (variable : str)
  : list production :=
  let idxs := indices item variable in
  (fun combination =>
     let result := omap id (blank_out item idxs combination) in
     match result with [] => [epsilon] | _ => result end)
    <$> product01 (length idxs).

Definition replace_products (g : ContextFreeGrammar) (variable : str)
    (products : list production) : result ContextFreeGrammar :=
  match dict_get (rules g) variable with
  | None => Exc KeyError g
  | Some _ =>
      Val (foldl (fun g product => add_product g variable product)
                 (set_rules g (dict_set (rules g) variable [])) products)
  end.

(** The two nested loops of [change_start_variable] look for the first
    production equal to [[start_variable]] and return right after it. *)
Definition start_is_unit_rhs (g : ContextFreeGrammar) : bool :=
  existsb (fun kv => existsb (fun product => bool_decide (product = [start_variable g])) kv.2)
          (rules g).

Definition change_start_variable (g : ContextFreeGrammar) : result ContextFreeGrammar :=
  if start_is_unit_rhs g then
    g1 ← add_rule ucd g (s "S0") [[start_variable g]];
    sort_rules (set_start g1 (s "S0"))
  else Val g.

(** *** [remove_epsilon_rules] *)

(** [set.pop()] returns an arbitrary element: the element at position
    [choice] (modulo the size) of the set's elements. *)
Definition set_pop (choice : nat) (x : gset str) : option (str * gset str) :=
  let l := elements x in
  v ← l !! (choice mod length l)%nat;
  Some (v, x ∖ {[v]}).

Definition has_epsilon (ps : list production) : bool := bool_decide ([epsilon] ∈ ps).

Definition initial_nullable (g : ContextFreeGrammar) : gset str :=
  list_to_set (filter (fun kv => has_epsilon kv.2 = true) (rules g)).*1.

Definition expand (variable : str) (pros : list production) : list production :=
  pro ← pros;
  if bool_decide (variable ∈ pro) then generate_combinations pro variable else [pro].

(** The body of [for var, pros in grammar.rules.items()].  No key is added
    while this loop runs, so the loop visits the keys of the dictionary as
    they are when it starts; [pros] is the list stored under [var]. *)
Definition rewrite_var (variable : str) (visited : gset str)
    (st : ContextFreeGrammar * gset str) (var : str)
  : result (ContextFreeGrammar * gset str) :=
  let '(g, nullable) := st in
  match dict_get (rules g) var with
  | None => Exc KeyError g
  | Some pros =>
      g' ← replace_products g var (expand variable pros);
      match dict_get (rules g') var with
      | None => Exc KeyError g'
      | Some pros' =>
          Val (g', if has_epsilon pros' && bool_decide (var ∉ visited)
                   then {[var]} ∪ nullable else nullable)
      end
  end.

Fixpoint for_each {A St : Type} (body : St → A → result St) (st : St) (l : list A)
  : result St :=
  match l with
  | [] => Val st
  | x :: l' => st' ← body st x; for_each body st' l'
  end.

(** The [while nullable] loop.  [pick t] is the choice [set.pop] makes in
    iteration [t]; [trace] records the popped variables in order (it is not
    a variable of the program). *)
Fixpoint remove_epsilon_loop (fuel : nat) (pick : nat → nat) (t : nat)
    (g : ContextFreeGrammar) (visited nullable : gset str) (trace : list str)
  : result (ContextFreeGrammar * list str) :=
  match set_pop (pick t) nullable with
  | None => Val (g, trace)
  | Some (variable, nullable) =>
      match fuel with
      | O => Fuel
      | S fuel' =>
          match dict_get (rules g) variable with
          | None => Exc KeyError g
          | Some ps =>
              match list_remove [epsilon] ps with
              | None => Exc ValueError g
              | Some ps' =>
                  let g := set_rules g (dict_set (rules g) variable ps') in
                  let visited := {[variable]} ∪ visited in
                  st ← for_each (rewrite_var variable visited) (g, nullable)
                                (dict_keys (rules g));
                  remove_epsilon_loop fuel' pick (S t) st.1 visited st.2
                                      (trace ++ [variable])
              end
          end
      end
  end.

Definition remove_epsilon_trace (fuel : nat) (pick : nat → nat) (g : ContextFreeGrammar)
  : result (ContextFreeGrammar * list str) :=
  remove_epsilon_loop fuel pick 0 g ∅ (initial_nullable g) [].

(** One iteration for each key is always enough, as proved below. *)
Definition remove_epsilon_rules (pick : nat → nat) (g : ContextFreeGrammar)
  : result ContextFreeGrammar :=
  fst <$> remove_epsilon_trace (length (rules g)) pick g.

(** *** [remove_unit_rules] *)

Definition unit_pairs (g : ContextFreeGrammar) : list (str * production) :=
  kv ← rules g;
  product ← kv.2;
  match product with
  | [p0] => if bool_decide (p0 ∈ variables g) then [(kv.1, product)] else []
  | _ => []
  end.

(** The body of [for i, (variable, product) in enumerate(unit_pairs)]. *)
Definition inline_unit (pairs : list (str * production))
    (g : ContextFreeGrammar) (i : nat) (pair : str * production)
  : result ContextFreeGrammar :=
  let '(variable, product) := pair in
  match product with
  | [] => Exc IndexError g
  | p0 :: _ =>
      if bool_decide (p0 ≠ variable) then
        match dict_get (rules g) variable with
        | None => Exc KeyError g
        | Some ps =>
            match list_remove product ps with
            | None => Exc ValueError g
            | Some ps' =>
                let g := set_rules g (dict_set (rules g) variable ps') in
                match dict_get (rules g) p0 with
                | None => Exc KeyError g
                | Some body =>
                    if existsb (fun item => bool_decide ((variable, item) ∈ take i pairs)) body
                    then Val g
                    else add_rule ucd g variable body
                end
            end
        end
      else Val g
  end.

Fixpoint for_enumerate {A St : Type} (body : St → nat → A → result St)
    (i : nat) (st : St) (l : list A) : result St :=
  match l with
  | [] => Val st
  | x :: l' => st' ← body st i x; for_enumerate body (S i) st' l'
  end.

Definition remove_unit_rules (g : ContextFreeGrammar) : result ContextFreeGrammar :=
  let pairs := unit_pairs g in
  for_enumerate (inline_unit pairs) 0 g pairs.

(** *** [convert_to_proper_form] *)

Fixpoint uint_codes (d : Decimal.uint) : str :=
  match d with
  | Decimal.Nil => []
  | Decimal.D0 d => 48 :: uint_codes d
  | Decimal.D1 d => 49 :: uint_codes d
  | Decimal.D2 d => 50 :: uint_codes d
  | Decimal.D3 d => 51 :: uint_codes d
  | Decimal.D4 d => 52 :: uint_codes d
  | Decimal.D5 d => 53 :: uint_codes d
  | Decimal.D6 d => 54 :: uint_codes d
  | Decimal.D7 d => 55 :: uint_codes d
  | Decimal.D8 d => 56 :: uint_codes d
  | Decimal.D9 d => 57 :: uint_codes d
  end.

(** [f'U{i}'] *)
Definition U (i : N) : str := s "U" ++ uint_codes (N.to_uint i).

(** [for var, pros in grammar.rules.items(): if new_product == pros: ...
    break]: the first key whose whole body equals [new_product]. *)
Definition find_body (d : dict) (new_product : list production) : option str :=
  fst <$> find (fun kv => bool_decide (new_product = kv.2)) d.

(** [grammar.rules[variable].remove(product)] *)
Definition remove_product (g : ContextFreeGrammar) (variable : str) (product : production)
  : result ContextFreeGrammar :=
  match dict_get (rules g) variable with
  | None => Exc KeyError g
  | Some ps =>
      match list_remove product ps with
      | None => Exc ValueError g
      | Some ps' => Val (set_rules g (dict_set (rules g) variable ps'))
      end
  end.

(** The body of [for product in products] in step 1; the state is the
    grammar and the counter [i]. *)
Definition shorten (variable : str) (product : production)
    (st : ContextFreeGrammar * N) : result (ContextFreeGrammar * N) :=
  let '(g, i) := st in
  match product with
  | p0 :: ((_ :: _ :: _) as tail) =>
      g ← remove_product g variable product;
      let new_variable := U i in
      let new_product := [tail] in
      match find_body (rules g) new_product with
      | Some var =>
          g ← add_rule ucd g variable [[p0; var]];
          Val (g, i)
      | None =>
          g ← add_rule ucd g new_variable new_product;
          g ← add_rule ucd g variable [[p0; new_variable]];
          Val (g, i + 1)
      end
  | _ => Val (g, i)
  end.

(** [for product in products]: a list iterator is an index into the list
    object, which the body shortens and extends; the list stored under
    [variable] is that same object throughout. *)
Fixpoint step1_for (fuel : nat) (variable : str) (k : nat)
    (st : ContextFreeGrammar * N) : result (ContextFreeGrammar * N) :=
  match fuel with
  | O => Fuel
  | S fuel' =>
      match dict_get (rules st.1) variable with
      | None => Exc KeyError st.1
      | Some products =>
          match products !! k with
          | None => Val st
          | Some product =>
              st' ← shorten variable product st;
              step1_for fuel' variable (S k) st'
          end
      end
  end.

(** [while index < len(grammar.rules.items())] of step 1. *)
Fixpoint step1_while (fuel : nat) (index : nat)
    (st : ContextFreeGrammar * N) : result (ContextFreeGrammar * N) :=
  match fuel with
  | O => Fuel
  | S fuel' =>
      match dict_keys (rules st.1) !! index with
      | None => Val st
      | Some variable =>
          st' ← step1_for fuel variable 0 st;
          step1_while fuel' (S index) st'
      end
  end.

(** [grammar.rules[variable][j] = product] *)
Definition assign_product (g : ContextFreeGrammar) (variable : str) (j : nat)
    (product : production) : result ContextFreeGrammar :=
  match dict_get (rules g) variable with
  | None => Exc KeyError g
  | Some ps =>
      if bool_decide (j < length ps)%nat
      then Val (set_rules g (dict_set (rules g) variable (<[j := product]> ps)))
      else Exc IndexError g
  end.

(** [grammar.rules[variable][j]] *)
Definition product_at (g : ContextFreeGrammar) (variable : str) (j : nat)
  : result production :=
  match dict_get (rules g) variable with
  | None => Exc KeyError g
  | Some ps =>
      match ps !! j with
      | None => Exc IndexError g
      | Some product => Val product
      end
  end.

(** One of the two [if product[_] in grammar.terminals] blocks of step 2:
    [t] is the terminal, [mk v] the production with [v] in its place. *)
Definition isolate (variable : str) (j : nat) (t : str) (mk : str → production)
    (st : ContextFreeGrammar * N) : result (ContextFreeGrammar * N) :=
  let '(g, i) := st in
  let new_variable := U i in
  let new_product := [[t]] in
  match find_body (rules g) new_product with
  | Some var =>
      g ← assign_product g variable j (mk var);
      Val (g, i)
  | None =>
      g ← add_rule ucd g new_variable new_product;
      g ← assign_product g variable j (mk new_variable);
      Val (g, i + 1)
  end.

(** The body of [for j, product in enumerate(products)] in step 2. *)
Definition isolate_terminals (variable : str) (j : nat) (product : production)
    (st : ContextFreeGrammar * N) : result (ContextFreeGrammar * N) :=
  match product with
  | p0 :: p1 :: _ =>
      st ← (if bool_decide (p0 ∈ terminals st.1)
            then isolate variable j p0 (fun v => [v; p1]) st
            else Val st);
      product ← product_at st.1 variable j;
      match product with
      | q0 :: q1 :: _ =>
          if bool_decide (q1 ∈ terminals st.1)
          then isolate variable j q1 (fun v => [q0; v]) st
          else Val st
      | _ => Exc IndexError st.1
      end
  | _ => Val st
  end.

Fixpoint step2_for (fuel : nat) (variable : str) (j : nat)
    (st : ContextFreeGrammar * N) : result (ContextFreeGrammar * N) :=
  match fuel with
  | O => Fuel
  | S fuel' =>
      match dict_get (rules st.1) variable with
      | None => Exc KeyError st.1
      | Some products =>
          match products !! j with
          | None => Val st
          | Some product =>
              st' ← isolate_terminals variable j product st;
              step2_for fuel' variable (S j) st'
          end
      end
  end.

Fixpoint step2_while (fuel : nat) (index : nat)
    (st : ContextFreeGrammar * N) : result (ContextFreeGrammar * N) :=
  match fuel with
  | O => Fuel
  | S fuel' =>
      match dict_keys (rules st.1) !! index with
      | None => Val st
      | Some variable =>
          st' ← step2_for fuel variable 0 st;
          step2_while fuel' (S index) st'
      end
  end.

(** [fuel] bounds the number of iterations of each loop. *)
Definition convert_to_proper_form (fuel : nat) (g : ContextFreeGrammar)
  : result ContextFreeGrammar :=
  st ← step1_while fuel 0 (g, 1);
  st ← step2_while fuel 0 st;
  Val st.1.

Definition main (fuel : nat) (pick : nat → nat) (g : ContextFreeGrammar)
  : result ContextFreeGrammar :=
  g ← change_start_variable g;
  g ← remove_epsilon_rules pick g;
  g ← remove_unit_rules g;
  convert_to_proper_form fuel g.

End Pipeline.

(** * Vocabulary of the properties *)

(** [v] has the production [p]. *)
Definition has_product (g : ContextFreeGrammar) (v : str) (p : production) : Prop :=
  ∃ ps, dict_get (rules g) v = Some ps ∧ p ∈ ps.

(** No variable has the same production twice. *)
Definition rules_nodup (g : ContextFreeGrammar) : Prop :=
  Forall (fun kv => NoDup kv.2) (rules g).

(** The grammar a procedure leaves behind, whether it returns or raises,
    has no repeated production. *)
Definition leaves_nodup (r : result ContextFreeGrammar) : Prop :=
  match r with
  | Val g | Exc _ g => rules_nodup g
  | Fuel => True
  end.

(** The effect of one [add_product] on the list of a variable that has an
    entry. *)
Definition extend (acc : list production) (p : production) : list production :=
  if decide (p ∈ acc) then acc else acc ++ [p].

(** What holds at the head of the [while] loop and between two iterations
    of the [for] loop: the keys are those the function started with, and
    every variable of the worklist is unvisited and has the production ε. *)
Definition eps_inv (K : list str) (visited : gset str)
    (g : ContextFreeGrammar) (nullable : gset str) : Prop :=
  dict_keys (rules g) = K ∧
  ∀ v, v ∈ nullable → (v ∉ visited) ∧ has_product g v [epsilon].

(** Every variable that has the production ε is on the worklist or has been
    visited. *)
Definition eps_cover (visited : gset str) (g : ContextFreeGrammar)
    (nullable : gset str) : Prop :=
  ∀ v, has_product g v [epsilon] → v ∈ nullable ∨ v ∈ visited.

(** [g'] has the start variable of [g] and at least its variables and
    terminals. *)
Definition grows (g g' : ContextFreeGrammar) : Prop :=
  start_variable g' = start_variable g ∧
  variables g ⊆ variables g' ∧ terminals g ⊆ terminals g'.

(** A production that [convert_to_proper_form] has nothing to do with: at
    most two symbols, and no terminal among two. *)
Definition settled_product (g : ContextFreeGrammar) (p : production) : Prop :=
  match p with
  | [] | [_] => True
  | [a; b] => (a ∉ terminals g) ∧ (b ∉ terminals g)
  | _ => False
  end.

Definition settled (g : ContextFreeGrammar) : Prop :=
  Forall (fun kv => Forall (settled_product g) kv.2) (rules g).

(** The list [results] of [generate_combinations] with the empty result
    left as it is, and the replacement made when a result is appended. *)
Definition combinations_raw (item : production) (variable : str) : list production :=
  (fun combination => omap id (blank_out item (indices item variable) combination))
    <$> product01 (length (indices item variable)).

Definition or_epsilon (result : production) : production :=
  match result with [] => [epsilon] | _ => result end.

(** ** The language of a grammar *)

(** [yields g α w]: the sentential form [α] derives the word [w].  A symbol
    of [terminals] stands for itself, a key of [rules] for any of its
    productions, and the production [[ε]] for the empty word. *)
Inductive yields (g : ContextFreeGrammar) : production → list str → Prop :=
| yields_nil : yields g [] []
| yields_terminal t α w :
    t ∈ terminals g → yields g α w → yields g (t :: α) (t :: w)
| yields_variable A ps p α u w :
    dict_get (rules g) A = Some ps → p ∈ ps → p ≠ [epsilon] →
    yields g p u → yields g α w → yields g (A :: α) (u ++ w)
| yields_epsilon A ps α w :
    dict_get (rules g) A = Some ps → [epsilon] ∈ ps →
    yields g α w → yields g (A :: α) w.

Definition language (g : ContextFreeGrammar) (w : list str) : Prop :=
  yields g [start_variable g] w.

(** [aⁿbⁿ] *)
Definition anbn_word (n : nat) : list str :=
  repeat (s "a") n ++ repeat (s "b") n.

(** A rule whose body is one production made of one terminal. *)
Definition terminal_unit (g : ContextFreeGrammar) (kv : str * list production) : bool :=
  match kv.2 with
  | [[t]] => bool_decide (t ∈ terminals g)
  | _ => false
  end.

(** The words of each symbol of [anbn] and of [anbn_cnf]. *)
Definition anbn_words (X : str) (w : list str) : Prop :=
  if decide (X = s "S") then ∃ n, w = anbn_word n
  else if decide (X = s "a") then w = [s "a"]
  else if decide (X = s "b") then w = [s "b"]
  else False.

Definition anbn_cnf_words (X : str) (w : list str) : Prop :=
  if decide (X = s "S") then ∃ n, w = anbn_word (S n)
  else if decide (X = s "U1") then ∃ n, w = anbn_word (S n) ++ [s "b"]
  else if decide (X = s "U2") then w = [s "a"]
  else if decide (X = s "U3") then w = [s "b"]
  else if decide (X = s "a") then w = [s "a"]
  else if decide (X = s "b") then w = [s "b"]
  else False.

(** ** Grammars of the scenarios *)

(** A table without cased letters or digits outside ASCII and ε; the
    grammars of the examples below use ASCII names and ε only, so that no
    result depends on this choice. *)
Definition ascii_only : N → uclass := fun _ => Other.

(** [ContextFreeGrammar(['S', 'S0'], ['a', 'b'],
                        {'S': [['a']], 'S0': [['S'], ['b']]}, 'S')] *)
Definition grammar_S0_taken : ContextFreeGrammar :=
  CFG (list_to_set [s "S"; s "S0"]) (list_to_set [s "a"; s "b"])
      [(s "S", [[s "a"]]); (s "S0", [[s "S"]; [s "b"]])] (s "S").

(** The words of each symbol of [grammar_S0_taken]. *)
Definition S0_taken_words (X : str) (w : list str) : Prop :=
  if decide (X = s "S") then w = [s "a"]
  else if decide (X = s "S0") then w = [s "a"] ∨ w = [s "b"]
  else if decide (X = s "a") then w = [s "a"]
  else if decide (X = s "b") then w = [s "b"]
  else False.

(** [ContextFreeGrammar(['S', 'A'], ['a', 'b'],
                        {'S': [['a', 'A']], 'A': [['S'], ['b']]}, 'S')] *)
Definition grammar_start_reused : ContextFreeGrammar :=
  CFG (list_to_set [s "S"; s "A"]) (list_to_set [s "a"; s "b"])
      [(s "S", [[s "a"; s "A"]]); (s "A", [[s "S"]; [s "b"]])] (s "S").

(** [ContextFreeGrammar(['S'], ['a', 'b'], {'S': [['a','S','b'], ['ε']]}, 'S')] *)
Definition anbn : ContextFreeGrammar :=
  CFG (list_to_set [s "S"]) (list_to_set [s "a"; s "b"])
      [(s "S", [[s "a"; s "S"; s "b"]; [epsilon]])] (s "S").

(** What the pipeline makes of [anbn]. *)
Definition anbn_cnf : ContextFreeGrammar :=
  CFG (list_to_set [s "S"; s "U1"; s "U2"; s "U3"]) (list_to_set [s "a"; s "b"])
      [(s "S", [[s "U2"; s "U3"]; [s "U2"; s "U1"]]);
       (s "U1", [[s "S"; s "U3"]]);
       (s "U2", [[s "a"]]);
       (s "U3", [[s "b"]])]
      (s "S").

(** [ContextFreeGrammar(['A','B','C'], ['a'],
                        {'A': [['B']], 'B': [['C']], 'C': [['a']]}, 'A')] *)
Definition unit_chain : ContextFreeGrammar :=
  CFG (list_to_set [s "A"; s "B"; s "C"]) (list_to_set [s "a"])
      [(s "A", [[s "B"]]); (s "B", [[s "C"]]); (s "C", [[s "a"]])] (s "A").

(** [ContextFreeGrammar(['S','A'], ['a','b'],
                        {'S': [['a','A']], 'A': [['A','A'], ['b'], ['ε']]}, 'S')] *)
Definition nullable_pair : ContextFreeGrammar :=
  CFG (list_to_set [s "S"; s "A"]) (list_to_set [s "a"; s "b"])
      [(s "S", [[s "a"; s "A"]]); (s "A", [[s "A"; s "A"]; [s "b"]; [epsilon]])]
      (s "S").

(** [ContextFreeGrammar(['S','A','B'], ['a','b'],
      {'S': [['A','A','A'], ['B','B','B']], 'A': [['a']], 'B': [['b']]}, 'S')] *)
Definition two_triples : ContextFreeGrammar :=
  CFG (list_to_set [s "S"; s "A"; s "B"]) (list_to_set [s "a"; s "b"])
      [(s "S", [[s "A"; s "A"; s "A"]; [s "B"; s "B"; s "B"]]);
       (s "A", [[s "a"]]); (s "B", [[s "b"]])]
      (s "S").

(** [ContextFreeGrammar(['S','A','B'], ['a','b'],
      {'S': [['A','B']], 'A': [['a']], 'B': [['b']]}, 'S')] *)
Definition cnf_ab : ContextFreeGrammar :=
  CFG (list_to_set [s "S"; s "A"; s "B"]) (list_to_set [s "a"; s "b"])
      [(s "S", [[s "A"; s "B"]]); (s "A", [[s "a"]]); (s "B", [[s "b"]])]
      (s "S").

(** What [convert_to_proper_form] makes of [two_triples]. *)
Definition two_triples_out : ContextFreeGrammar :=
  CFG (list_to_set [s "S"; s "A"; s "B"; s "U1"]) (list_to_set [s "a"; s "b"])
      [(s "S", [[s "B"; s "B"; s "B"]; [s "A"; s "U1"]]);
       (s "A", [[s "a"]]); (s "B", [[s "b"]]);
       (s "U1", [[s "A"; s "A"]])]
      (s "S").

(** [ContextFreeGrammar(['S','X','B'], ['a','b'],
      {'S': [['a','B'], ['X','B']], 'X': [['a']], 'B': [['b']]}, 'S')] *)
Definition shared_terminal : ContextFreeGrammar :=
  CFG (list_to_set [s "S"; s "X"; s "B"]) (list_to_set [s "a"; s "b"])
      [(s "S", [[s "a"; s "B"]; [s "X"; s "B"]]);
       (s "X", [[s "a"]]); (s "B", [[s "b"]])]
      (s "S").

(** * Properties *)

(** ** Dictionaries *)

Lemma dict_get_set_eq d k v : dict_get (dict_set d k v) k = Some v.
Proof.
  induction d as [|[k' v'] d IH]; simpl.
  - by rewrite decide_True.
  - destruct (decide (k' = k)) as [->|Hne]; simpl.
    + by rewrite decide_True.
    + by rewrite decide_False.
Qed.

Lemma dict_get_set_ne d k k' v : k ≠ k' → dict_get (dict_set d k v) k' = dict_get d k'.
Proof.
  intros Hne. induction d as [|[k0 v0] d IH]; simpl.
  - by rewrite decide_False.
  - destruct (decide (k0 = k)) as [->|Hne0]; simpl.
    + by rewrite !decide_False.
    + by rewrite IH.
Qed.

Lemma dict_keys_set_present d k v ps :
  dict_get d k = Some ps → dict_keys (dict_set d k v) = dict_keys d.
Proof.
  unfold dict_keys. induction d as [|[k0 v0] d IH]; simpl; [done|].
  destruct (decide (k0 = k)) as [->|Hne]; [done|].
  intros H. rewrite fmap_cons. f_equal. auto.
Qed.

Lemma dict_keys_set_absent d k v :
  dict_get d k = None → dict_keys (dict_set d k v) = dict_keys d ++ [k].
Proof.
  unfold dict_keys. induction d as [|[k0 v0] d IH]; simpl; [done|].
  destruct (decide (k0 = k)) as [->|Hne]; [done|].
  intros H. rewrite fmap_cons. simpl. f_equal. auto.
Qed.

Lemma dict_get_Some_key d k ps : dict_get d k = Some ps → k ∈ dict_keys d.
Proof.
  unfold dict_keys. induction d as [|[k0 v0] d IH]; simpl; [done|].
  destruct (decide (k0 = k)) as [->|Hne]; intros H.
  - apply list_elem_of_here.
  - apply list_elem_of_further. auto.
Qed.

Lemma dict_get_key d k : k ∈ dict_keys d → is_Some (dict_get d k).
Proof.
  unfold dict_keys. induction d as [|[k0 v0] d IH]; simpl.
  - intros H. by apply elem_of_nil in H.
  - destruct (decide (k0 = k)) as [->|Hne]; [eauto|].
    intros [?|?]%elem_of_cons; [congruence|auto].
Qed.

Lemma dict_get_elem_of d k ps : dict_get d k = Some ps → (k, ps) ∈ d.
Proof.
  induction d as [|[k0 v0] d IH]; simpl; [done|].
  destruct (decide (k0 = k)) as [->|Hne]; intros H.
  - injection H as ->. apply list_elem_of_here.
  - apply list_elem_of_further. auto.
Qed.

Lemma dict_elem_of_get d k ps : dict_wf d → (k, ps) ∈ d → dict_get d k = Some ps.
Proof.
  unfold dict_wf, dict_keys. induction d as [|[k0 v0] d IH]; simpl.
  - intros _ H. by apply elem_of_nil in H.
  - intros [Hnotin Hnd]%NoDup_cons [Heq|Hin]%elem_of_cons.
    + injection Heq as -> ->. by rewrite decide_True.
    + destruct (decide (k0 = k)) as [->|Hne]; [|auto].
      exfalso. apply Hnotin. apply list_elem_of_fmap. by exists (k, ps).
Qed.

(** ** [add_rule]: the left-hand side *)

Section AddRule.

Variable ucd : N → uclass.

Lemma classify_AZ c : (65 <=? c) && (c <=? 90) = true → classify ucd c = Upper.
Proof.
  intros [H1 H2]%andb_true_iff. apply N.leb_le in H1, H2.
  unfold classify, ascii_class.
  replace (c <? 128) with true by (symmetry; apply N.ltb_lt; lia).
  replace (65 <=? c) with true by (symmetry; by apply N.leb_le).
  replace (c <=? 90) with true by (symmetry; by apply N.leb_le).
  done.
Qed.

Lemma uclass_eqb_eq a b : uclass_eqb a b = true ↔ a = b.
Proof. destruct a, b; simpl; split; congruence. Qed.

Lemma tail_uncased x :
  at_dollar (skip_digits ucd x) = true →
  forallb (fun c => negb (uclass_eqb (classify ucd c) Lower
                          || uclass_eqb (classify ucd c) Title)) x = true.
Proof.
  induction x as [|c x IH]; simpl; [done|].
  unfold is_decimal. destruct (uclass_eqb (classify ucd c) Decimal) eqn:Hd.
  - apply uclass_eqb_eq in Hd. rewrite Hd. simpl. auto.
  - simpl. destruct x as [|c' x'].
    + destruct c as [|p]; [done|].
      intros Hc. assert (p = 10%positive) as ->.
      { repeat (destruct p as [p|p|]; try done). }
      reflexivity.
    + destruct c as [|p]; [done|].
      repeat (destruct p as [p|p|]; try done).
Qed.

(** A left-hand side that passes the check of [add_rule] is uppercase in the
    sense of [str.isupper]. *)
Lemma re_match_lhs_isupper lhs : re_match_lhs ucd lhs = true → isupper ucd lhs = true.
Proof.
  destruct lhs as [|c x]; [done|]. simpl.
  intros [Hc Hx]%andb_true_iff.
  pose proof (classify_AZ c Hc) as Hu.
  unfold isupper. simpl. rewrite Hu. simpl.
  rewrite tail_uncased by done. reflexivity.
Qed.

Lemma skip_digits_split x :
  ∃ ds, x = ds ++ skip_digits ucd x ∧ forallb (is_decimal ucd) ds = true.
Proof.
  induction x as [|c x [ds [Hx Hds]]]; simpl.
  - by exists [].
  - destruct (is_decimal ucd c) eqn:Hc.
    + exists (c :: ds). simpl. rewrite Hc, Hds. split; [by f_equal|done].
    + by exists [].
Qed.

Lemma skip_digits_app ds nl :
  forallb (is_decimal ucd) ds = true → (nl = [] ∨ nl = [10]) →
  skip_digits ucd (ds ++ nl) = nl.
Proof.
  intros Hds Hnl. induction ds as [|c ds IH]; simpl in *.
  - by destruct Hnl as [-> | ->].
  - apply andb_true_iff in Hds as [Hc Hds]. rewrite Hc. auto.
Qed.

(** X22.  What [add_rule] accepts as a left-hand side: a letter [A]..[Z],
    then decimal digits, then nothing or one newline. *)
Lemma re_match_lhs_shape lhs :
  re_match_lhs ucd lhs = true ↔
  ∃ c ds nl, lhs = c :: ds ++ nl ∧ 65 ≤ c ∧ c ≤ 90 ∧
             forallb (is_decimal ucd) ds = true ∧ (nl = [] ∨ nl = [10]).
Proof.
  split.
  - destruct lhs as [|c x]; [done|]. simpl.
    intros [[H1 H2]%andb_true_iff Hx]%andb_true_iff.
    apply N.leb_le in H1, H2.
    destruct (skip_digits_split x) as [ds [Hsplit Hds]].
    exists c, ds, (skip_digits ucd x). repeat split; try done.
    + congruence.
    + destruct (skip_digits ucd x) as [|c' r]; [by left|].
      right. destruct c' as [|q]; [done|].
      repeat (destruct q as [q|q|]; try done).
      by destruct r.
  - intros (c & ds & nl & -> & H1 & H2 & Hds & Hnl). simpl.
    rewrite skip_digits_app by done.
    apply N.leb_le in H1, H2. rewrite H1, H2. simpl.
    by destruct Hnl as [-> | ->].
Qed.

(** [add_rule] raises exactly when the check fails, the exception is
    [InvalidRule], and the grammar is as it was. *)
Lemma add_rule_raises g lhs rhs e g' :
  add_rule ucd g lhs rhs = Exc e g' →
  re_match_lhs ucd lhs = false ∧ e = InvalidRule ∧ g' = g.
Proof.
  unfold add_rule. destruct (re_match_lhs ucd lhs); simpl; [done|].
  intros H. injection H as <- <-. done.
Qed.

Lemma add_rule_invalid g lhs rhs :
  re_match_lhs ucd lhs = false → add_rule ucd g lhs rhs = Exc InvalidRule g.
Proof. unfold add_rule. by intros ->. Qed.

Lemma add_rule_valid g lhs rhs :
  re_match_lhs ucd lhs = true →
  add_rule ucd g lhs rhs = Val (foldl (add_rule_item ucd lhs) g rhs).
Proof. unfold add_rule. by intros ->. Qed.

(** Scenario 4: the left-hand side ["s"] is refused. *)
Lemma add_rule_lowercase g rhs : add_rule ucd g (s "s") rhs = Exc InvalidRule g.
Proof. reflexivity. Qed.

(** ** [add_product] and [add_rule]: what they change *)

Lemma add_product_variables g v p :
  variables (add_product g v p) = {[v]} ∪ variables g.
Proof.
  unfold add_product. simpl. destruct (dict_get (rules g) v) as [ps|]; [|done].
  by destruct (decide (p ∈ ps)).
Qed.

Lemma add_product_terminals g v p : terminals (add_product g v p) = terminals g.
Proof.
  unfold add_product. simpl. destruct (dict_get (rules g) v) as [ps|]; [|done].
  by destruct (decide (p ∈ ps)).
Qed.

Lemma add_product_start g v p : start_variable (add_product g v p) = start_variable g.
Proof.
  unfold add_product. simpl. destruct (dict_get (rules g) v) as [ps|]; [|done].
  by destruct (decide (p ∈ ps)).
Qed.

Lemma add_product_get_eq g v p :
  dict_get (rules (add_product g v p)) v =
  Some (match dict_get (rules g) v with
        | Some ps => if decide (p ∈ ps) then ps else ps ++ [p]
        | None => [p]
        end).
Proof.
  unfold add_product. simpl. destruct (dict_get (rules g) v) as [ps|] eqn:Hg.
  - destruct (decide (p ∈ ps)); simpl; [done|]. apply dict_get_set_eq.
  - simpl. apply dict_get_set_eq.
Qed.

Lemma add_product_get_ne g v p k :
  v ≠ k → dict_get (rules (add_product g v p)) k = dict_get (rules g) k.
Proof.
  intros Hne. unfold add_product. simpl.
  destruct (dict_get (rules g) v) as [ps|] eqn:Hg.
  - destruct (decide (p ∈ ps)); simpl; [done|]. by apply dict_get_set_ne.
  - simpl. by apply dict_get_set_ne.
Qed.

Lemma add_product_keys_present g v p ps :
  dict_get (rules g) v = Some ps →
  dict_keys (rules (add_product g v p)) = dict_keys (rules g).
Proof.
  intros Hg. unfold add_product. simpl. rewrite Hg.
  destruct (decide (p ∈ ps)); simpl; [done|]. by eapply dict_keys_set_present.
Qed.

Lemma add_product_has g v p : has_product (add_product g v p) v p.
Proof.
  eexists. split; [apply add_product_get_eq|].
  destruct (dict_get (rules g) v) as [ps|].
  - destruct (decide (p ∈ ps)); [done|]. apply elem_of_app. right. apply list_elem_of_here.
  - apply list_elem_of_here.
Qed.

Lemma add_product_keeps g v p k q :
  has_product g k q → has_product (add_product g v p) k q.
Proof.
  intros (ps & Hg & Hq). destruct (decide (v = k)) as [->|Hne].
  - eexists. split; [apply add_product_get_eq|]. rewrite Hg.
    destruct (decide (p ∈ ps)); [done|]. apply elem_of_app. by left.
  - exists ps. by rewrite add_product_get_ne.
Qed.

Ltac scan_cases ucd g item :=
  unfold scan_item;
  destruct (isupper ucd item) eqn:?;
  destruct (bool_decide (item ∉ variables g)) eqn:?;
  destruct (islower ucd item) eqn:?;
  destruct (bool_decide (item = epsilon)) eqn:?; simpl;
  repeat match goal with
         | H : bool_decide _ = true |- _ => apply bool_decide_eq_true in H
         | H : bool_decide _ = false |- _ => apply bool_decide_eq_false in H
         end.

Lemma scan_item_rules g item : rules (scan_item ucd g item) = rules g.
Proof. by scan_cases ucd g item. Qed.

Lemma scan_item_start g item : start_variable (scan_item ucd g item) = start_variable g.
Proof. by scan_cases ucd g item. Qed.

Lemma scan_item_variables g item x :
  x ∈ variables (scan_item ucd g item) ↔
  x ∈ variables g ∨ (x = item ∧ isupper ucd item = true).
Proof.
  scan_cases ucd g item;
    rewrite ?elem_of_union, ?elem_of_singleton;
    try match goal with H : ¬ (_ ∉ _) |- _ => apply dec_stable in H end;
    naive_solver.
Qed.

Lemma scan_item_terminals g item x :
  x ∈ terminals (scan_item ucd g item) ↔
  x ∈ terminals g ∨ (x = item ∧ (islower ucd item = true ∨ item = epsilon)).
Proof.
  scan_cases ucd g item; rewrite ?elem_of_union, ?elem_of_singleton; naive_solver.
Qed.

Lemma scan_items_rules g items : rules (foldl (scan_item ucd) g items) = rules g.
Proof.
  revert g. induction items as [|i items IH]; intros g; simpl; [done|].
  by rewrite IH, scan_item_rules.
Qed.

Lemma scan_items_start g items :
  start_variable (foldl (scan_item ucd) g items) = start_variable g.
Proof.
  revert g. induction items as [|i items IH]; intros g; simpl; [done|].
  by rewrite IH, scan_item_start.
Qed.

Lemma scan_items_variables g items x :
  x ∈ variables (foldl (scan_item ucd) g items) ↔
  x ∈ variables g ∨ (x ∈ items ∧ isupper ucd x = true).
Proof.
  revert g. induction items as [|i items IH]; intros g; simpl.
  - rewrite elem_of_nil. naive_solver.
  - rewrite IH, scan_item_variables, elem_of_cons. naive_solver.
Qed.

Lemma scan_items_terminals g items x :
  x ∈ terminals (foldl (scan_item ucd) g items) ↔
  x ∈ terminals g ∨ (x ∈ items ∧ (islower ucd x = true ∨ x = epsilon)).
Proof.
  revert g. induction items as [|i items IH]; intros g; simpl.
  - rewrite elem_of_nil. naive_solver.
  - rewrite IH, scan_item_terminals, elem_of_cons. naive_solver.
Qed.

Lemma add_rule_item_variables lhs g p x :
  x ∈ variables (add_rule_item ucd lhs g p) ↔
  x = lhs ∨ x ∈ variables g ∨ (x ∈ p ∧ isupper ucd x = true).
Proof.
  unfold add_rule_item. rewrite add_product_variables, elem_of_union,
    elem_of_singleton, scan_items_variables. naive_solver.
Qed.

Lemma add_rule_item_terminals lhs g p x :
  x ∈ terminals (add_rule_item ucd lhs g p) ↔
  x ∈ terminals g ∨ (x ∈ p ∧ (islower ucd x = true ∨ x = epsilon)).
Proof.
  unfold add_rule_item. by rewrite add_product_terminals, scan_items_terminals.
Qed.

Lemma add_rule_items_variables lhs g rhs x :
  x ∈ variables (foldl (add_rule_item ucd lhs) g rhs) ↔
  x ∈ variables g ∨ (x = lhs ∧ rhs ≠ []) ∨
  (∃ p, p ∈ rhs ∧ x ∈ p ∧ isupper ucd x = true).
Proof.
  revert g. induction rhs as [|p rhs IH]; intros g; simpl.
  - setoid_rewrite elem_of_nil. naive_solver.
  - rewrite IH, add_rule_item_variables. setoid_rewrite elem_of_cons.
    naive_solver.
Qed.

Lemma add_rule_items_terminals lhs g rhs x :
  x ∈ terminals (foldl (add_rule_item ucd lhs) g rhs) ↔
  x ∈ terminals g ∨
  (∃ p, p ∈ rhs ∧ x ∈ p ∧ (islower ucd x = true ∨ x = epsilon)).
Proof.
  revert g. induction rhs as [|p rhs IH]; intros g; simpl.
  - setoid_rewrite elem_of_nil. naive_solver.
  - rewrite IH, add_rule_item_terminals. setoid_rewrite elem_of_cons.
    naive_solver.
Qed.

Lemma add_rule_item_keeps lhs g p k q :
  has_product g k q → has_product (add_rule_item ucd lhs g p) k q.
Proof.
  intros (ps & Hg & Hq). apply add_product_keeps.
  exists ps. by rewrite scan_items_rules.
Qed.

Lemma add_rule_items_keep lhs g rhs k q :
  has_product g k q → has_product (foldl (add_rule_item ucd lhs) g rhs) k q.
Proof.
  revert g. induction rhs as [|p rhs IH]; intros g H; simpl; [done|].
  by apply IH, add_rule_item_keeps.
Qed.

Lemma add_rule_items_has lhs g rhs p :
  p ∈ rhs → has_product (foldl (add_rule_item ucd lhs) g rhs) lhs p.
Proof.
  revert g. induction rhs as [|q rhs IH]; intros g Hp; simpl.
  - by apply elem_of_nil in Hp.
  - apply elem_of_cons in Hp as [->|Hp]; [|auto].
    apply add_rule_items_keep. apply add_product_has.
Qed.

(** C10.  With a valid left-hand side, a symbol of a right-hand side that
    is neither uppercase nor lowercase nor the marker ε is kept in its
    production, which is then among the productions of [lhs], and the call
    adds it neither to [variables] nor to [terminals]. *)
Theorem add_rule_other_symbol g lhs rhs rhs_item item :
  re_match_lhs ucd lhs = true →
  rhs_item ∈ rhs → item ∈ rhs_item →
  isupper ucd item = false → islower ucd item = false → item ≠ epsilon →
  ∃ g', add_rule ucd g lhs rhs = Val g' ∧
        has_product g' lhs rhs_item ∧
        (item ∈ variables g' ↔ item ∈ variables g) ∧
        (item ∈ terminals g' ↔ item ∈ terminals g).
Proof.
  intros Hlhs Hrhs Hitem Hup Hlow Heps.
  eexists. split; [by apply add_rule_valid|]. split; [by apply add_rule_items_has|].
  rewrite add_rule_items_variables, add_rule_items_terminals.
  pose proof (re_match_lhs_isupper lhs Hlhs) as Hlu.
  split; split; try tauto.
  - intros [?|[[-> _]|(p & _ & _ & ?)]]; [done|congruence|congruence].
  - intros [?|(p & _ & _ & [?|?])]; [done|congruence|done].
Qed.

(** C7.  The left-hand side ["S\n"] (an uppercase letter and a newline) is
    not a letter followed by digits, and [add_rule] accepts it: the check
    [[A-Z]\d*$] lets a final newline through, and the name becomes a
    variable of the grammar. *)
Theorem add_rule_trailing_newline g :
  re_match_lhs ucd (s "S" ++ [10]) = true ∧
  ∃ g', add_rule ucd g (s "S" ++ [10]) [[s "a"]] = Val g' ∧
        (s "S" ++ [10]) ∈ variables g' ∧
        has_product g' (s "S" ++ [10]) [s "a"].
Proof.
  split; [reflexivity|].
  eexists. split; [by apply add_rule_valid|]. split.
  - apply add_rule_items_variables. right. left. done.
  - apply add_rule_items_has. apply list_elem_of_here.
Qed.

End AddRule.

(** [add_rule('S', [['1', 'a']])]: the symbol ['1'] is neither uppercase
    nor lowercase. *)
Lemma add_rule_other_symbol_witness :
  ∃ g', add_rule ascii_only anbn (s "S") [[s "1"; s "a"]] = Val g' ∧
        has_product g' (s "S") [s "1"; s "a"] ∧
        (s "1" ∈ variables g' ↔ s "1" ∈ variables anbn) ∧
        (s "1" ∈ terminals g' ↔ s "1" ∈ terminals anbn).
Proof.
  apply (add_rule_other_symbol ascii_only anbn (s "S") [[s "1"; s "a"]]
           [s "1"; s "a"] (s "1")).
  - reflexivity.
  - apply list_elem_of_here.
  - apply list_elem_of_here.
  - reflexivity.
  - reflexivity.
  - discriminate.
Defined.

(** ** [change_start_variable] *)

Section ChangeStart.

Variable ucd : N → uclass.

Lemma start_is_unit_rhs_spec g :
  start_is_unit_rhs g = true ↔
  ∃ variable products, (variable, products) ∈ rules g ∧ [start_variable g] ∈ products.
Proof.
  unfold start_is_unit_rhs. rewrite existsb_exists. split.
  - intros ([k ps] & Hin & Hex). apply existsb_exists in Hex as (p & Hp & Heq).
    apply bool_decide_eq_true in Heq as ->.
    exists k, ps. split; by apply list_elem_of_In.
  - intros (k & ps & Hin & Hp). exists (k, ps). split; [by apply list_elem_of_In|].
    apply existsb_exists. exists [start_variable g].
    split; [by apply list_elem_of_In|]. by apply bool_decide_eq_true.
Qed.

Lemma dict_get_filter_ne d k0 k :
  k ≠ k0 → dict_get (filter (fun kv : str * list production => kv.1 ≠ k0) d) k = dict_get d k.
Proof.
  intros Hne. induction d as [|[k1 v1] d IH]; [done|].
  rewrite (filter_cons (fun kv : str * list production => kv.1 ≠ k0)).
  destruct (decide ((k1, v1).1 ≠ k0)) as [Hk|Hk]; simpl in *.
  - destruct (decide (k1 = k)); [done|exact IH].
  - apply dec_stable in Hk as ->. rewrite decide_False by done. exact IH.
Qed.

Lemma filter_key_dict_set (d : dict) k v :
  filter (fun kv : str * list production => kv.1 ≠ k) (dict_set d k v)
  = filter (fun kv : str * list production => kv.1 ≠ k) d.
Proof.
  induction d as [|[k1 v1] d IH]; simpl.
  - rewrite (filter_cons (fun kv : str * list production => kv.1 ≠ k)).
    destruct (decide ((k, v).1 ≠ k)) as [Hk|_]; [by destruct Hk|done].
  - destruct (decide (k1 = k)) as [->|Hne].
    + rewrite !(filter_cons (fun kv : str * list production => kv.1 ≠ k)).
      destruct (decide ((k, v).1 ≠ k)) as [Hk|_]; [by destruct Hk|].
      destruct (decide ((k, v1).1 ≠ k)) as [Hk|_]; [by destruct Hk|done].
    + rewrite !(filter_cons (fun kv : str * list production => kv.1 ≠ k)).
      destruct (decide ((k1, v1).1 ≠ k)) as [_|Hk]; [|by destruct Hk].
      f_equal. exact IH.
Qed.

(** X28.  What [change_start_variable] does, whether or not ['S0'] is
    already in use.  When some production is exactly [[start_variable]], the start
    variable becomes ['S0']; the entry of ['S0'] is moved to the front and
    has the production [[S]] (its only one when ['S0'] had no rule); the
    other entries follow in their old order with their old productions;
    [variables] gains ['S0'] (and [S] itself when [S] is uppercase) and
    grows by exactly one when ['S0'] was not a variable and [S] was.  When
    no production is [[start_variable]], the grammar is unchanged. *)
Lemma change_start_variable_spec g :
  (start_is_unit_rhs g = true →
   ∃ g', change_start_variable ucd g = Val g' ∧
     start_variable g' = s "S0" ∧
     has_product g' (s "S0") [start_variable g] ∧
     (∃ body, head (rules g') = Some (s "S0", body)) ∧
     tail (rules g') = filter (fun kv => kv.1 ≠ s "S0") (rules g) ∧
     (dict_get (rules g) (s "S0") = None →
      dict_get (rules g') (s "S0") = Some [[start_variable g]]) ∧
     (∀ k, k ≠ s "S0" → dict_get (rules g') k = dict_get (rules g) k) ∧
     (∀ x, x ∈ variables g' ↔
           x = s "S0" ∨ x ∈ variables g ∨
           (x = start_variable g ∧ isupper ucd x = true)) ∧
     (s "S0" ∉ variables g → start_variable g ∈ variables g →
      size (variables g') = S (size (variables g)))) ∧
  (start_is_unit_rhs g = false → change_start_variable ucd g = Val g).
Proof.
  unfold change_start_variable. split; intros ->; [|done].
  rewrite add_rule_valid by reflexivity. simpl.
  set (g1 := add_rule_item ucd (s "S0") g [start_variable g]).
  assert (has_product g1 (s "S0") [start_variable g]) as (ps & Hps & Hin).
  { apply (add_rule_items_has ucd (s "S0") g [[start_variable g]]), list_elem_of_here. }
  unfold sort_rules. simpl. rewrite Hps. eexists. split; [done|]. simpl.
  assert (∀ x, x ∈ variables g1 ↔
               x = s "S0" ∨ x ∈ variables g ∨
               (x = start_variable g ∧ isupper ucd x = true)) as Hvars.
  { intros x. unfold g1. rewrite add_rule_item_variables, list_elem_of_singleton.
    naive_solver. }
  split; [done|]. split.
  { exists ps. simpl. done. }
  split; [by exists ps|]. split.
  { unfold g1, add_rule_item, add_product. cbn [rules set_variables].
    rewrite scan_items_rules.
    destruct (dict_get (rules g) (s "S0")) as [qs|].
    - case_decide.
      + unfold set_variables. cbn [rules]. by rewrite scan_items_rules.
      + unfold set_rules. cbn [rules]. apply filter_key_dict_set.
    - unfold set_rules. cbn [rules]. apply filter_key_dict_set. }
  split.
  { intros Hnone. unfold g1, add_rule_item in Hps.
    rewrite add_product_get_eq, scan_items_rules, Hnone in Hps. exact (eq_sym Hps). }
  split.
  { intros k Hk. case_decide; [done|].
    rewrite dict_get_filter_ne by done.
    unfold g1, add_rule_item. rewrite add_product_get_ne by done.
    by rewrite scan_items_rules. }
  split; [exact Hvars|].
  intros HS0 Hstart.
  assert (variables g1 = {[s "S0"]} ∪ variables g) as ->.
  { apply set_eq. intros x. rewrite Hvars, elem_of_union, elem_of_singleton.
    naive_solver. }
  rewrite size_union by (by apply disjoint_singleton_l).
  by rewrite size_singleton.
Qed.

End ChangeStart.

(** The case with a production [[S]] and no variable ['S0'], on
    [S → aA, A → S | b]. *)
Lemma change_start_variable_spec_witness :
  ∃ g', change_start_variable ascii_only grammar_start_reused = Val g' ∧
        start_variable g' = s "S0" ∧
        head (rules g') = Some (s "S0", [[s "S"]]) ∧
        tail (rules g') = rules grammar_start_reused ∧
        size (variables g') = 3%nat.
Proof.
  destruct (change_start_variable_spec ascii_only grammar_start_reused) as [H _].
  destruct (H eq_refl)
    as (g' & Hrun & Hstart & _ & [body Hhead] & Htail & Hbody & _ & _ & Hsize).
  exists g'. split; [exact Hrun|]. split; [exact Hstart|].
  split.
  { rewrite Hhead. f_equal. f_equal.
    specialize (Hbody eq_refl). destruct (rules g') as [|[k v] l]; [done|].
    injection Hhead as -> ->. simpl in Hbody. by injection Hbody as ->. }
  split; [exact Htail|].
  apply Hsize.
  - apply (bool_decide_unpack _). vm_compute. exact I.
  - apply (bool_decide_unpack _). vm_compute. exact I.
Defined.

(** ** [remove_epsilon_rules] *)

Lemma elem_of_extends acc new p : p ∈ foldl extend acc new ↔ p ∈ acc ∨ p ∈ new.
Proof.
  revert acc. induction new as [|q new IH]; intros acc; simpl.
  - rewrite elem_of_nil. naive_solver.
  - rewrite IH, elem_of_cons. unfold extend.
    destruct (decide (q ∈ acc)); [naive_solver|].
    rewrite elem_of_app, list_elem_of_singleton. naive_solver.
Qed.

Lemma NoDup_extends acc new : NoDup acc → NoDup (foldl extend acc new).
Proof.
  revert acc. induction new as [|q new IH]; intros acc Hnd; simpl; [done|].
  apply IH. unfold extend. destruct (decide (q ∈ acc)); [done|].
  apply NoDup_app. split; [done|]. split; [|apply NoDup_singleton].
  intros x Hx ->%list_elem_of_singleton. done.
Qed.

Lemma dict_set_forall (P : list production → Prop) d k v :
  Forall (fun kv => P kv.2) d → P v → Forall (fun kv => P kv.2) (dict_set d k v).
Proof.
  intros Hd Hv. induction Hd as [|[k0 v0] d H0 Hd IH]; simpl.
  - by constructor.
  - destruct (decide (k0 = k)); constructor; auto.
Qed.

Lemma dict_get_forall (P : list production → Prop) d k v :
  Forall (fun kv => P kv.2) d → dict_get d k = Some v → P v.
Proof.
  intros Hd Hk%dict_get_elem_of.
  rewrite Forall_forall in Hd. by apply (Hd (k, v)).
Qed.

Lemma list_remove_sublist x l l' : list_remove x l = Some l' → sublist l' l.
Proof.
  revert l'. induction l as [|y l IH]; intros l'; simpl; [done|].
  destruct (decide (y = x)).
  - intros [= <-]. by apply sublist_cons.
  - destruct (list_remove x l) as [l0|]; simpl; [|done].
    intros [= <-]. apply sublist_skip. auto.
Qed.

Lemma list_remove_Some x l : x ∈ l → is_Some (list_remove x l).
Proof.
  induction l as [|y l IH]; simpl.
  - intros H. by apply elem_of_nil in H.
  - destruct (decide (y = x)); [eauto|].
    intros [?|Hin]%elem_of_cons; [congruence|].
    destruct (IH Hin) as [l' ->]. simpl. eauto.
Qed.

Lemma add_product_nodup g v p : rules_nodup g → rules_nodup (add_product g v p).
Proof.
  unfold rules_nodup, add_product. simpl. intros Hg.
  destruct (dict_get (rules g) v) as [ps|] eqn:Hget.
  - destruct (decide (p ∈ ps)); simpl; [done|].
    apply (dict_set_forall (fun ps => NoDup ps)); [done|].
    apply NoDup_app. split; [by eapply (dict_get_forall (fun ps => NoDup ps))|].
    split; [|apply NoDup_singleton].
    intros x Hx ->%list_elem_of_singleton. done.
  - simpl. apply (dict_set_forall (fun ps => NoDup ps)); [done|apply NoDup_singleton].
Qed.

Section Epsilon.

Lemma add_products_get g v acc new :
  dict_get (rules g) v = Some acc →
  dict_get (rules (foldl (fun g p => add_product g v p) g new)) v
  = Some (foldl extend acc new).
Proof.
  revert g acc. induction new as [|q new IH]; intros g acc Hg; simpl; [done|].
  apply IH. rewrite add_product_get_eq, Hg. done.
Qed.

Lemma add_products_get_ne g v new k :
  v ≠ k →
  dict_get (rules (foldl (fun g p => add_product g v p) g new)) k = dict_get (rules g) k.
Proof.
  intros Hne. revert g. induction new as [|q new IH]; intros g; simpl; [done|].
  by rewrite IH, add_product_get_ne.
Qed.

Lemma add_products_keys g v acc new :
  dict_get (rules g) v = Some acc →
  dict_keys (rules (foldl (fun g p => add_product g v p) g new)) = dict_keys (rules g).
Proof.
  revert g acc. induction new as [|q new IH]; intros g acc Hg; simpl; [done|].
  erewrite IH by (rewrite add_product_get_eq, Hg; done).
  by eapply add_product_keys_present.
Qed.

Lemma add_products_nodup g v new :
  rules_nodup g → rules_nodup (foldl (fun g p => add_product g v p) g new).
Proof.
  revert g. induction new as [|q new IH]; intros g Hg; simpl; [done|].
  by apply IH, add_product_nodup.
Qed.

(** [replace_products] on a variable that has an entry: the new list is
    [products] without repetitions, and no other entry changes. *)
Lemma replace_products_spec g var ps0 new :
  dict_get (rules g) var = Some ps0 →
  ∃ g', replace_products g var new = Val g' ∧
        dict_keys (rules g') = dict_keys (rules g) ∧
        dict_get (rules g') var = Some (foldl extend [] new) ∧
        (∀ k, var ≠ k → dict_get (rules g') k = dict_get (rules g) k) ∧
        (rules_nodup g → rules_nodup g').
Proof.
  intros Hg. unfold replace_products. rewrite Hg. eexists. split; [done|].
  set (g0 := set_rules g (dict_set (rules g) var [])).
  assert (dict_get (rules g0) var = Some []) as H0 by apply dict_get_set_eq.
  split; [|split; [|split]].
  - erewrite add_products_keys by done. simpl. by eapply dict_keys_set_present.
  - by apply add_products_get.
  - intros k Hk. rewrite add_products_get_ne by done. simpl.
    by apply dict_get_set_ne.
  - intros Hnd. apply add_products_nodup. unfold rules_nodup, g0. simpl.
    apply (dict_set_forall (fun ps => NoDup ps)); [done|apply NoDup_nil_2].
Qed.

Lemma expand_keeps_epsilon variable pros :
  [epsilon] ∈ pros → [epsilon] ∈ expand variable pros.
Proof.
  intros Hin. unfold expand. apply list_elem_of_bind. exists [epsilon].
  split; [|done]. case_bool_decide as Hv.
  - apply list_elem_of_singleton in Hv as ->. vm_compute. apply list_elem_of_here.
  - apply list_elem_of_here.
Qed.

Lemma rewrite_var_inv K variable visited g nullable var :
  eps_inv K visited g nullable → var ∈ K →
  ∃ st, rewrite_var variable visited (g, nullable) var = Val st ∧
        eps_inv K visited st.1 st.2 ∧ (rules_nodup g → rules_nodup st.1).
Proof.
  intros [HK Hnull] Hvar. unfold rewrite_var.
  destruct (dict_get_key (rules g) var) as [pros Hpros]; [by rewrite HK|].
  rewrite Hpros.
  destruct (replace_products_spec g var pros (expand variable pros) Hpros)
    as (g' & -> & Hkeys & Hget & Hother & Hnd).
  simpl. rewrite Hget. eexists. split; [done|]. simpl.
  split; [|done]. split; [by rewrite Hkeys|].
  intros v Hv.
  destruct (decide (v = var)) as [->|Hne].
  - assert (var ∈ nullable → [epsilon] ∈ foldl extend [] (expand variable pros)) as Hold.
    { intros Hold. destruct (Hnull _ Hold) as [_ (ps & Hps & Hin)].
      apply elem_of_extends. right. apply expand_keeps_epsilon.
      rewrite Hpros in Hps. by injection Hps as ->. }
    unfold has_product, has_epsilon in *.
    destruct (bool_decide ([epsilon] ∈ foldl extend [] (expand variable pros))) eqn:He;
      destruct (bool_decide (var ∉ visited)) eqn:Hvis; simpl in Hv.
    + apply bool_decide_eq_true in He, Hvis. split; [done|]. eauto.
    + apply bool_decide_eq_false in Hvis.
      destruct (Hnull _ Hv) as [Hn _]. by destruct Hvis.
    + apply bool_decide_eq_false in He. destruct (He (Hold Hv)).
    + apply bool_decide_eq_false in He. destruct (He (Hold Hv)).
  - assert (v ∈ nullable) as Hv'.
    { destruct (has_epsilon _ && _); [|done].
      apply elem_of_union in Hv as [?%elem_of_singleton|?]; done. }
    destruct (Hnull _ Hv') as [Hvis (ps & Hps & Hin)].
    split; [done|]. exists ps. rewrite Hother by done. done.
Qed.

Lemma rewrite_vars_inv K variable visited l :
  ∀ g nullable,
  eps_inv K visited g nullable → (∀ x, x ∈ l → x ∈ K) →
  ∃ st, for_each (rewrite_var variable visited) (g, nullable) l = Val st ∧
        eps_inv K visited st.1 st.2 ∧ (rules_nodup g → rules_nodup st.1).
Proof.
  induction l as [|var l IH]; intros g nullable Hinv Hl.
  - eexists. split; [done|]. simpl. done.
  - destruct (rewrite_var_inv K variable visited g nullable var Hinv)
      as ([g1 n1] & Hrw & Hinv1 & Hnd1); [apply Hl, list_elem_of_here|].
    simpl in Hinv1, Hnd1.
    destruct (IH g1 n1 Hinv1) as (st & Hfe & Hinv2 & Hnd2).
    { intros x Hx. by apply Hl, list_elem_of_further. }
    exists st. split; [|split; [done|auto]].
    cbn [for_each]. rewrite Hrw. exact Hfe.
Qed.

Lemma set_pop_Some choice x v x' :
  set_pop choice x = Some (v, x') → v ∈ x ∧ x' = x ∖ {[v]}.
Proof.
  unfold set_pop. destruct (elements x !! _) as [w|] eqn:Hw; simpl; [|done].
  intros [= <- <-]. split; [|done].
  apply elem_of_elements. by eapply list_elem_of_lookup_2.
Qed.

(** [while nullable] stops exactly when the set is empty. *)
Lemma set_pop_None choice x : set_pop choice x = None ↔ x = ∅.
Proof.
  unfold set_pop. split.
  - destruct (elements x !! _) as [w|] eqn:Hw; simpl; [done|]. intros _.
    apply lookup_ge_None in Hw.
    destruct (elements x) as [|y l] eqn:Hel.
    + by apply elements_empty_inv, leibniz_equiv in Hel.
    + pose proof (Nat.mod_upper_bound choice (length (y :: l))) as Hlt.
      simpl in *. lia.
  - intros ->. by rewrite elements_empty.
Qed.

Lemma trace_bound K (trace : list str) v :
  NoDup trace → (∀ x, x ∈ trace → x ∈ K) → v ∉ trace → v ∈ K →
  (S (length trace) ≤ length K)%nat.
Proof.
  intros Hnd Hsub Hv HvK.
  change (S (length trace)) with (length (v :: trace)).
  apply submseteq_length, NoDup_submseteq.
  - by apply NoDup_cons.
  - intros x [->|Hx]%elem_of_cons; auto.
Qed.

(** The loop of [remove_epsilon_rules] from any state that satisfies the
    invariant: it ends without exception within the iterations that the
    unvisited keys allow. *)
Lemma remove_epsilon_loop_terminates K pick fuel :
  ∀ t g visited nullable trace,
  eps_inv K visited g nullable →
  (∀ x, x ∈ visited ↔ x ∈ trace) → NoDup trace → (∀ x, x ∈ trace → x ∈ K) →
  (length K ≤ fuel + length trace)%nat →
  ∃ g' trace',
    remove_epsilon_loop fuel pick t g visited nullable trace = Val (g', trace') ∧
    NoDup trace' ∧ (∀ x, x ∈ trace' → x ∈ K) ∧
    dict_keys (rules g') = K ∧ (rules_nodup g → rules_nodup g').
Proof.
  induction fuel as [|fuel IH]; intros t g visited nullable trace Hinv Hvis Hnd Hsub Hlen.
  - cbn [remove_epsilon_loop].
    destruct (set_pop (pick t) nullable) as [[v n']|] eqn:Hpop.
    + exfalso. apply set_pop_Some in Hpop as [Hv _].
      destruct Hinv as [HK Hnull]. destruct (Hnull v Hv) as [Hnv (ps & Hps & _)].
      assert (S (length trace) ≤ length K)%nat; [|simpl in Hlen; lia].
      apply (trace_bound K trace v); [done|done|by rewrite <- Hvis|].
      rewrite <- HK. by eapply dict_get_Some_key.
    + exists g, trace. destruct Hinv. done.
  - cbn [remove_epsilon_loop].
    destruct (set_pop (pick t) nullable) as [[v n']|] eqn:Hpop;
      [|exists g, trace; destruct Hinv; done].
    apply set_pop_Some in Hpop as [Hv ->].
    destruct Hinv as [HK Hnull]. destruct (Hnull v Hv) as [Hnv (ps & Hps & Hin)].
    rewrite Hps. destruct (list_remove_Some [epsilon] ps Hin) as [ps' Hrm].
    rewrite Hrm.
    set (g1 := set_rules g (dict_set (rules g) v ps')).
    assert (dict_keys (rules g1) = K) as HK1.
    { simpl. rewrite <- HK. by eapply dict_keys_set_present. }
    assert (v ∈ K) as HvK by (rewrite <- HK; by eapply dict_get_Some_key).
    assert (eps_inv K ({[v]} ∪ visited) g1 (nullable ∖ {[v]})) as Hinv1.
    { split; [done|]. intros w [Hw Hwv%not_elem_of_singleton]%elem_of_difference.
      destruct (Hnull w Hw) as [Hnw (qs & Hqs & Hq)]. split.
      - rewrite elem_of_union, elem_of_singleton. naive_solver.
      - exists qs. simpl. rewrite dict_get_set_ne by done. done. }
    destruct (rewrite_vars_inv K v ({[v]} ∪ visited) (dict_keys (rules g1))
                g1 (nullable ∖ {[v]}) Hinv1) as ([g2 n2] & Hfe & Hinv2 & Hnd2).
    { intros x. by rewrite HK1. }
    rewrite Hfe. simpl in Hinv2, Hnd2. cbn [mbind result_bind fst snd].
    destruct (IH (S t) g2 ({[v]} ∪ visited) n2 (trace ++ [v]) Hinv2)
      as (g' & trace' & Hrun & Hnd' & Hsub' & HK' & Hnodup').
    { intros x. rewrite elem_of_union, elem_of_singleton, elem_of_app,
        list_elem_of_singleton, Hvis. naive_solver. }
    { apply NoDup_app. split; [done|]. split; [|apply NoDup_singleton].
      intros x Hx ->%list_elem_of_singleton. by apply Hnv, Hvis. }
    { intros x [Hx| ->%list_elem_of_singleton]%elem_of_app; auto. }
    { rewrite length_app. simpl. simpl in Hlen. lia. }
    exists g', trace'. split; [exact Hrun|]. split; [done|]. split; [done|].
    split; [done|]. intros Hg. apply Hnodup', Hnd2.
    unfold rules_nodup, g1. simpl.
    apply (dict_set_forall (fun ps => NoDup ps)); [done|].
    eapply sublist_NoDup; [|by eapply list_remove_sublist].
    by eapply (dict_get_forall (fun ps => NoDup ps)).
Qed.

Lemma initial_nullable_spec g v :
  dict_wf (rules g) →
  v ∈ initial_nullable g → has_product g v [epsilon].
Proof.
  intros Hwf. unfold initial_nullable.
  rewrite elem_of_list_to_set, list_elem_of_fmap.
  intros ([k ps] & -> & [Heps Hin]%list_elem_of_filter). simpl in *.
  exists ps. split; [by apply dict_elem_of_get|].
  by apply bool_decide_eq_true in Heps.
Qed.

(** C9.  [remove_epsilon_rules] terminates: whatever [set.pop] picks, the
    [while] loop ends, without exception, after at most one iteration for
    each key of [rules]; no variable is popped twice, and only keys of
    [rules] are popped. *)
Theorem remove_epsilon_rules_terminates pick g fuel :
  dict_wf (rules g) → (length (rules g) ≤ fuel)%nat →
  ∃ g' trace,
    remove_epsilon_trace fuel pick g = Val (g', trace) ∧
    NoDup trace ∧ (∀ x, x ∈ trace → x ∈ dict_keys (rules g)) ∧
    (length trace ≤ length (rules g))%nat.
Proof.
  intros Hwf Hfuel. unfold remove_epsilon_trace.
  destruct (remove_epsilon_loop_terminates (dict_keys (rules g)) pick fuel
              0%nat g ∅ (initial_nullable g) [])
    as (g' & trace & Hrun & Hnd & Hsub & _ & _).
  - split; [done|]. intros v Hv. split; [apply not_elem_of_empty|].
    by apply initial_nullable_spec.
  - intros x. rewrite elem_of_nil. split; [|done]. apply not_elem_of_empty.
  - apply NoDup_nil_2.
  - intros x Hx. by apply elem_of_nil in Hx.
  - unfold dict_keys. rewrite length_fmap. simpl. lia.
  - exists g', trace. split; [done|]. split; [done|]. split; [done|].
    unfold dict_keys in Hsub.
    rewrite <- (length_fmap fst (rules g)).
    apply submseteq_length, NoDup_submseteq; done.
Qed.

End Epsilon.

(** The bound at work on [S → aA, A → AA | b | ε]: two keys, one
    iteration. *)
Lemma remove_epsilon_rules_terminates_witness :
  ∃ g' trace,
    remove_epsilon_trace 2 (fun _ => 0%nat) nullable_pair = Val (g', trace) ∧
    NoDup trace ∧ (∀ x, x ∈ trace → x ∈ dict_keys (rules nullable_pair)) ∧
    (length trace ≤ length (rules nullable_pair))%nat.
Proof.
  apply (remove_epsilon_rules_terminates (fun _ => 0%nat) nullable_pair 2).
  - apply (bool_decide_unpack _). vm_compute. exact I.
  - simpl. lia.
Defined.

(** [remove_epsilon_rules] itself runs the loop with one iteration for each
    key, so it always returns. *)
Lemma remove_epsilon_rules_returns pick g :
  dict_wf (rules g) →
  ∃ g', remove_epsilon_rules pick g = Val g' ∧
        dict_keys (rules g') = dict_keys (rules g) ∧
        (rules_nodup g → rules_nodup g').
Proof.
  intros Hwf. unfold remove_epsilon_rules, remove_epsilon_trace.
  destruct (remove_epsilon_loop_terminates (dict_keys (rules g)) pick
              (length (rules g)) 0%nat g ∅ (initial_nullable g) [])
    as (g' & trace & Hrun & _ & _ & HK & Hnd).
  - split; [done|]. intros v Hv. split; [apply not_elem_of_empty|].
    by apply initial_nullable_spec.
  - intros x. rewrite elem_of_nil. split; [|done]. apply not_elem_of_empty.
  - apply NoDup_nil_2.
  - intros x Hx. by apply elem_of_nil in Hx.
  - unfold dict_keys. rewrite length_fmap. simpl. lia.
  - exists g'. rewrite Hrun. done.
Qed.

(** * The scenarios *)

Lemma init_anbn :
  init [s "S"] [s "a"; s "b"] [(s "S", [[s "a"; s "S"; s "b"]; [epsilon]])] (s "S")
  = Val anbn.
Proof. vm_compute. reflexivity. Qed.

Lemma init_unit_chain :
  init [s "A"; s "B"; s "C"] [s "a"]
       [(s "A", [[s "B"]]); (s "B", [[s "C"]]); (s "C", [[s "a"]])] (s "A")
  = Val unit_chain.
Proof. vm_compute. reflexivity. Qed.

Lemma init_nullable_pair :
  init [s "S"; s "A"] [s "a"; s "b"]
       [(s "S", [[s "a"; s "A"]]); (s "A", [[s "A"; s "A"]; [s "b"]; [epsilon]])]
       (s "S")
  = Val nullable_pair.
Proof. vm_compute. reflexivity. Qed.

Lemma init_two_triples :
  init [s "S"; s "A"; s "B"] [s "a"; s "b"]
       [(s "S", [[s "A"; s "A"; s "A"]; [s "B"; s "B"; s "B"]]);
        (s "A", [[s "a"]]); (s "B", [[s "b"]])]
       (s "S")
  = Val two_triples.
Proof. vm_compute. reflexivity. Qed.

Lemma init_shared_terminal :
  init [s "S"; s "X"; s "B"] [s "a"; s "b"]
       [(s "S", [[s "a"; s "B"]; [s "X"; s "B"]]);
        (s "X", [[s "a"]]); (s "B", [[s "b"]])]
       (s "S")
  = Val shared_terminal.
Proof. vm_compute. reflexivity. Qed.

Section Scenarios.

Variable ucd : N → uclass.
Variable pick : nat → nat.

(** The run of the whole pipeline on [anbn] (loops bounded by 20
    iterations, which they do not reach). *)
Lemma main_anbn : main ucd 20 pick anbn = Val anbn_cnf.
Proof. vm_compute. reflexivity. Qed.

(** C4.  On [S → aSb | ε] the pipeline leaves the start variable [S] on
    the right-hand side of [U1 → S U3]: [change_start_variable] looks for a
    production that is exactly [[S]] and finds none. *)
Theorem main_start_on_rhs :
  ∃ g', main ucd 20 pick anbn = Val g' ∧
        start_variable g' = s "S" ∧
        rules g' ≠ [(start_variable g', [[epsilon]])] ∧
        ∃ variable products product,
          dict_get (rules g') variable = Some products ∧
          product ∈ products ∧ start_variable g' ∈ product.
Proof.
  exists anbn_cnf. split; [apply main_anbn|]. split; [done|]. split; [done|].
  exists (s "U1"), [[s "S"; s "U3"]], [s "S"; s "U3"].
  split; [done|]. split; apply list_elem_of_here.
Qed.

(** C2.  On [A → B, B → C, C → a], [remove_unit_rules] replaces [A → B] by
    [A → C]: the body of [B] is copied while it is still [[C]].  [A] keeps
    a unit production and does not get [a]. *)
Theorem remove_unit_rules_chain :
  ∃ g', remove_unit_rules ucd unit_chain = Val g' ∧
        rules g' = [(s "A", [[s "C"]]); (s "B", [[s "a"]]); (s "C", [[s "a"]])] ∧
        s "C" ∈ variables g' ∧
        has_product g' (s "A") [s "C"] ∧
        ¬ has_product g' (s "A") [s "a"].
Proof.
  eexists. split; [vm_compute; reflexivity|]. split; [done|]. split.
  - apply (bool_decide_unpack _). vm_compute. exact I.
  - split.
    + exists [[s "C"]]. split; [done|]. apply list_elem_of_here.
    + intros (ps & Hps & Hin). injection Hps as <-.
      apply list_elem_of_singleton in Hin. discriminate Hin.
Qed.

(** C3.  On [S → aA, A → AA | b | ε], [remove_epsilon_rules] removes
    [A → ε], then makes it again as the combination of [AA] that drops both
    [A]s; [A] is visited by then and is not put back on the worklist.  [A],
    which is not the start variable, ends with the production ε. *)
Theorem remove_epsilon_rules_leaves_epsilon :
  ∃ g', remove_epsilon_rules pick nullable_pair = Val g' ∧
        rules g' = [(s "S", [[s "a"]; [s "a"; s "A"]]);
                    (s "A", [[epsilon]; [s "A"]; [s "A"; s "A"]; [s "b"]])] ∧
        s "A" ≠ start_variable g' ∧
        has_product g' (s "A") [epsilon].
Proof.
  eexists. split; [vm_compute; reflexivity|]. split; [done|]. split; [done|].
  eexists. split; [done|]. apply list_elem_of_here.
Qed.

(** C1.  On [S → AAA | BBB, A → a, B → b] the pipeline returns with
    [S → BBB] still of length 3: step 1 of [convert_to_proper_form] removes
    [AAA] from the list it is iterating, [BBB] moves to the index already
    passed, and the loop never looks at it. *)
Theorem main_leaves_long_production :
  ∃ g', main ucd 20 pick two_triples = Val g' ∧
        rules g' = [(s "S", [[s "B"; s "B"; s "B"]; [s "A"; s "U1"]]);
                    (s "A", [[s "a"]]); (s "B", [[s "b"]]);
                    (s "U1", [[s "A"; s "A"]])] ∧
        has_product g' (s "S") [s "B"; s "B"; s "B"].
Proof.
  eexists. split; [vm_compute; reflexivity|]. split; [done|].
  eexists. split; [done|]. apply list_elem_of_here.
Qed.

(** C8.  [shared_terminal] has no repeated production, and
    [convert_to_proper_form] gives [S] the production [XB] twice: step 2
    overwrites [aB] in place with [XB], without the membership test of
    [add_product]. *)
Theorem convert_to_proper_form_duplicates :
  rules_nodup shared_terminal ∧
  ∃ g', convert_to_proper_form ucd 20 shared_terminal = Val g' ∧
        dict_get (rules g') (s "S") = Some [[s "X"; s "B"]; [s "X"; s "B"]] ∧
        ¬ rules_nodup g'.
Proof.
  split.
  - apply (bool_decide_unpack _). vm_compute. exact I.
  - eexists. split; [vm_compute; reflexivity|]. split; [done|].
    intros Hnd. apply Forall_cons_1 in Hnd as [Hnd _]. simpl in Hnd.
    apply NoDup_cons in Hnd as [Hnotin _]. apply Hnotin, list_elem_of_here.
Qed.

End Scenarios.

(** ** The language of a grammar: scenario 1 *)

Lemma yields_sound g (L : str → list str → Prop) :
  (∀ t, t ∈ terminals g → L t [t]) →
  (∀ A ps p ws, dict_get (rules g) A = Some ps → p ∈ ps → p ≠ [epsilon] →
                Forall2 L p ws → L A (concat ws)) →
  (∀ A ps, dict_get (rules g) A = Some ps → [epsilon] ∈ ps → L A []) →
  ∀ α w, yields g α w → ∃ ws, Forall2 L α ws ∧ w = concat ws.
Proof.
  intros Hterm Hvar Heps α w Hy.
  induction Hy as [|t α w Ht _ (ws & Hws & ->)
                   |A ps p α u w HA Hp Hne _ (ws1 & Hws1 & ->) _ (ws2 & Hws2 & ->)
                   |A ps α w HA Hp _ (ws & Hws & ->)].
  - exists []. split; [constructor|done].
  - exists ([t] :: ws). split; [constructor; auto|done].
  - exists (concat ws1 :: ws2). split; [constructor; eauto|done].
  - exists ([] :: ws). split; [constructor; eauto|done].
Qed.

Lemma yields_sound_start g L w :
  (∀ t, t ∈ terminals g → L t [t]) →
  (∀ A ps p ws, dict_get (rules g) A = Some ps → p ∈ ps → p ≠ [epsilon] →
                Forall2 L p ws → L A (concat ws)) →
  (∀ A ps, dict_get (rules g) A = Some ps → [epsilon] ∈ ps → L A []) →
  language g w → L (start_variable g) w.
Proof.
  intros Hterm Hvar Heps Hy.
  destruct (yields_sound g L Hterm Hvar Heps _ _ Hy) as (ws & Hws & ->).
  apply Forall2_cons_inv_l in Hws as (u & ws' & Hu & ->%Forall2_nil_inv_l & ->).
  simpl. by rewrite ?app_nil_r.
Qed.

Lemma yields_app g α β u w :
  yields g α u → yields g β w → yields g (α ++ β) (u ++ w).
Proof.
  intros Ha Hb. induction Ha; simpl.
  - done.
  - by apply yields_terminal.
  - rewrite <- app_assoc. by eapply yields_variable.
  - by eapply yields_epsilon.
Qed.

Lemma yields_rule g A ps p u :
  dict_get (rules g) A = Some ps → p ∈ ps → p ≠ [epsilon] →
  yields g p u → yields g [A] u.
Proof.
  intros HA Hp Hne Hy. rewrite <- (app_nil_r u).
  eapply yields_variable; eauto using yields_nil.
Qed.

Lemma yields_one_terminal g t : t ∈ terminals g → yields g [t] [t].
Proof. intros Ht. apply yields_terminal; [done|apply yields_nil]. Qed.

Lemma anbn_word_S n :
  anbn_word (S n) = s "a" :: anbn_word n ++ [s "b"].
Proof.
  unfold anbn_word. simpl. f_equal. rewrite <- app_assoc. f_equal.
  apply repeat_cons.
Qed.

Lemma anbn_terminal_a : s "a" ∈ terminals anbn.
Proof. apply (bool_decide_unpack _). vm_compute. exact I. Qed.

Lemma anbn_terminal_b : s "b" ∈ terminals anbn.
Proof. apply (bool_decide_unpack _). vm_compute. exact I. Qed.

Lemma anbn_terminals t : t ∈ terminals anbn → t = s "a" ∨ t = s "b".
Proof.
  unfold anbn. cbn [terminals].
  rewrite elem_of_list_to_set, !elem_of_cons, elem_of_nil. naive_solver.
Qed.

(** The language of [S → aSb | ε] is [{aⁿbⁿ : n ≥ 0}]. *)
Lemma language_anbn w : language anbn w ↔ ∃ n, w = anbn_word n.
Proof.
  split.
  - intros Hy.
    apply (yields_sound_start anbn anbn_words) in Hy; [exact Hy| | |].
    + intros t [-> | ->]%anbn_terminals; reflexivity.
    + intros A ps p ws HA Hp Hne Hws. simpl in HA.
      destruct (decide (s "S" = A)) as [<-|]; [|done]. injection HA as <-.
      apply elem_of_cons in Hp as [->|Hp].
      * apply Forall2_cons_inv_l in Hws as (u1 & ws1 & Hu1 & Hws & ->).
        apply Forall2_cons_inv_l in Hws as (u2 & ws2 & Hu2 & Hws & ->).
        apply Forall2_cons_inv_l in Hws as (u3 & ws3 & Hu3 & Hws & ->).
        apply Forall2_nil_inv_l in Hws as ->.
        change (anbn_words (s "a") u1) with (u1 = [s "a"]) in Hu1.
        change (anbn_words (s "b") u3) with (u3 = [s "b"]) in Hu3.
        change (anbn_words (s "S") u2) with (∃ n, u2 = anbn_word n) in Hu2.
        destruct Hu2 as [n ->]. subst u1 u3. exists (S n).
        rewrite anbn_word_S. simpl. by rewrite ?app_nil_r.
      * apply list_elem_of_singleton in Hp. done.
    + intros A ps HA _. simpl in HA.
      destruct (decide (s "S" = A)) as [<-|]; [|done]. by exists 0%nat.
  - intros [n ->]. unfold language. simpl. induction n as [|n IH].
    + eapply yields_epsilon; [reflexivity| |apply yields_nil].
      apply list_elem_of_further, list_elem_of_here.
    + rewrite anbn_word_S.
      eapply yields_rule; [reflexivity|apply list_elem_of_here|done|].
      apply yields_terminal; [apply anbn_terminal_a|].
      apply (yields_app anbn [s "S"] [s "b"]); [exact IH|].
      apply yields_one_terminal, anbn_terminal_b.
Qed.

Lemma anbn_cnf_terminals t : t ∈ terminals anbn_cnf → t = s "a" ∨ t = s "b".
Proof.
  unfold anbn_cnf. cbn [terminals].
  rewrite elem_of_list_to_set, !elem_of_cons, elem_of_nil. naive_solver.
Qed.

Lemma anbn_cnf_U2 : yields anbn_cnf [s "U2"] [s "a"].
Proof.
  eapply yields_rule; [reflexivity|apply list_elem_of_here|done|].
  apply yields_one_terminal, anbn_terminal_a.
Qed.

Lemma anbn_cnf_U3 : yields anbn_cnf [s "U3"] [s "b"].
Proof.
  eapply yields_rule; [reflexivity|apply list_elem_of_here|done|].
  apply yields_one_terminal, anbn_terminal_b.
Qed.

(** The language of [anbn_cnf] is [{aⁿbⁿ : n ≥ 1}]. *)
Lemma language_anbn_cnf w : language anbn_cnf w ↔ ∃ n, w = anbn_word (S n).
Proof.
  split.
  - intros Hy.
    apply (yields_sound_start anbn_cnf anbn_cnf_words) in Hy; [exact Hy| | |].
    + intros t [-> | ->]%anbn_cnf_terminals; reflexivity.
    + intros A ps p ws HA Hp Hne Hws. simpl in HA.
      repeat (destruct (decide (_ = A)) as [<-|]; [injection HA as <-|]);
        [..|done];
        repeat (apply elem_of_cons in Hp as [->|Hp]);
        try (by apply elem_of_nil in Hp);
        repeat (apply Forall2_cons_inv_l in Hws as (? & ? & ? & Hws & ->));
        apply Forall2_nil_inv_l in Hws as ->;
        repeat match goal with
               | H : anbn_cnf_words _ ?w |- _ =>
                   first [ change (w = [s "a"]) in H
                         | change (w = [s "b"]) in H
                         | change (∃ n, w = anbn_word (S n)) in H
                         | change (∃ n, w = anbn_word (S n) ++ [s "b"]) in H ]
               end;
        repeat match goal with H : ∃ _, _ |- _ => destruct H as [m ->] end;
        subst; simpl concat; rewrite ?app_nil_r.
      * by exists 0%nat.
      * exists (S m). by rewrite (anbn_word_S (S m)).
      * by exists m.
      * reflexivity.
      * reflexivity.
    + intros A ps HA Hp. simpl in HA.
      repeat (destruct (decide (_ = A)) as [<-|]; [injection HA as <-|]);
        [..|done];
        repeat (apply elem_of_cons in Hp as [?|Hp]; [done|]);
        by apply elem_of_nil in Hp.
  - intros [n ->]. unfold language. simpl. induction n as [|n IH].
    + eapply yields_rule; [reflexivity|apply list_elem_of_here|done|].
      apply (yields_app anbn_cnf [s "U2"] [s "U3"] [s "a"] [s "b"]).
      * apply anbn_cnf_U2.
      * apply anbn_cnf_U3.
    + rewrite (anbn_word_S (S n)).
      eapply yields_rule;
        [reflexivity|apply list_elem_of_further, list_elem_of_here|done|].
      apply (yields_app anbn_cnf [s "U2"] [s "U1"] [s "a"]); [apply anbn_cnf_U2|].
      eapply yields_rule; [reflexivity|apply list_elem_of_here|done|].
      apply (yields_app anbn_cnf [s "S"] [s "U3"]); [exact IH|apply anbn_cnf_U3].
Qed.

Lemma anbn_word_nil n : anbn_word (S n) ≠ [].
Proof. by rewrite anbn_word_S. Qed.

Lemma anbn_cnf_no_epsilon k ps : (k, ps) ∈ rules anbn_cnf → [epsilon] ∉ ps.
Proof.
  unfold anbn_cnf. cbn [rules]. rewrite !elem_of_cons, elem_of_nil.
  intros [H|[H|[H|[H|[]]]]]; injection H as -> ->;
    rewrite ?elem_of_cons, elem_of_nil; intros Hin;
    repeat destruct Hin as [Hin|Hin]; done.
Qed.

(** C5.  On [S → aSb | ε] the pipeline returns the grammar
    [S → U2 U3 | U2 U1, U1 → S U3, U2 → a, U3 → b] with start variable [S]:
    there is no [S0] and no production ε, so the empty word, which the
    input derives, is lost.  The rules with a single terminal as body are
    exactly [U2 → a] and [U3 → b]; the result derives [{aⁿbⁿ : n ≥ 1}], the
    input [{aⁿbⁿ : n ≥ 0}]. *)
Theorem main_anbn_language (ucd : N → uclass) (pick : nat → nat) :
  ∃ g', main ucd 20 pick anbn = Val g' ∧
        start_variable g' = s "S" ∧
        rules g' = [(s "S", [[s "U2"; s "U3"]; [s "U2"; s "U1"]]);
                    (s "U1", [[s "S"; s "U3"]]);
                    (s "U2", [[s "a"]]);
                    (s "U3", [[s "b"]])] ∧
        ¬ has_product g' (start_variable g') [epsilon] ∧
        language anbn [] ∧ ¬ language g' [] ∧
        (∀ k ps, (k, ps) ∈ rules g' → [epsilon] ∉ ps) ∧
        filter (fun kv => terminal_unit g' kv = true) (rules g')
        = [(s "U2", [[s "a"]]); (s "U3", [[s "b"]])] ∧
        (∀ w, language anbn w ↔ ∃ n, w = anbn_word n) ∧
        (∀ w, language g' w ↔ ∃ n, w = anbn_word (S n)) ∧
        (∀ w, language g' w ↔ language anbn w ∧ w ≠ []).
Proof.
  exists anbn_cnf. split; [apply main_anbn|]. split; [done|]. split; [done|].
  split.
  { intros (ps & Hps & Hin). apply dict_get_elem_of in Hps.
    by apply anbn_cnf_no_epsilon in Hps. }
  split; [apply language_anbn; by exists 0%nat|]. split.
  { intros [n Hn]%language_anbn_cnf. symmetry in Hn. by apply anbn_word_nil in Hn. }
  split; [apply anbn_cnf_no_epsilon|]. split; [vm_compute; reflexivity|].
  split; [apply language_anbn|]. split; [apply language_anbn_cnf|].
  intros w. rewrite language_anbn_cnf, language_anbn. split.
  - intros [n ->]. split; [eauto|apply anbn_word_nil].
  - intros [[[|n] ->] Hne]; [done|eauto].
Qed.

(** ** A grammar that already has a variable ['S0'] *)

Lemma S0_taken_terminals t :
  t ∈ terminals grammar_S0_taken → t = s "a" ∨ t = s "b".
Proof.
  unfold grammar_S0_taken. cbn [terminals].
  rewrite elem_of_list_to_set, !elem_of_cons, elem_of_nil. naive_solver.
Qed.

(** Every word that [grammar_S0_taken] derives from [S] is [a]. *)
Lemma language_S0_taken w : language grammar_S0_taken w → w = [s "a"].
Proof.
  intros Hy.
  apply (yields_sound_start grammar_S0_taken S0_taken_words) in Hy; [exact Hy| | |].
  - intros t [-> | ->]%S0_taken_terminals; reflexivity.
  - intros A ps p ws HA Hp Hne Hws. simpl in HA.
    destruct (decide (s "S" = A)) as [<-|HS].
    + injection HA as <-. apply list_elem_of_singleton in Hp as ->.
      apply Forall2_cons_inv_l in Hws as (u & ws' & Hu & ->%Forall2_nil_inv_l & ->).
      change (u = [s "a"]) in Hu. subst u. reflexivity.
    + destruct (decide (s "S0" = A)) as [<-|]; [|done]. injection HA as <-.
      apply elem_of_cons in Hp as [->|Hp].
      * apply Forall2_cons_inv_l in Hws as (u & ws' & Hu & ->%Forall2_nil_inv_l & ->).
        change (u = [s "a"]) in Hu. subst u. by left.
      * apply list_elem_of_singleton in Hp as ->.
        apply Forall2_cons_inv_l in Hws as (u & ws' & Hu & ->%Forall2_nil_inv_l & ->).
        change (u = [s "b"]) in Hu. subst u. by right.
  - intros A ps HA Hin. simpl in HA.
    destruct (decide (s "S" = A)); [injection HA as <-|].
    + apply list_elem_of_singleton in Hin. discriminate Hin.
    + destruct (decide (s "S0" = A)); [injection HA as <-|done].
      apply elem_of_cons in Hin as [Hin|Hin]; [discriminate Hin|].
      apply list_elem_of_singleton in Hin. discriminate Hin.
Qed.

(** C6.  The new start variable is not checked against [variables].  The
    grammar [S → a, S0 → S | b] with start [S] has the production [[S]] and
    already has the variable ['S0']; [change_start_variable] makes that
    ['S0'] the start variable.  The start variable of the result was a
    variable before, the set of variables is the same and does not grow by
    one, ['S0'] keeps its old production [b] next to [S], and the result
    derives the word [b], which the grammar it was given does not. *)
Theorem change_start_variable_reuses_S0 (ucd : N → uclass) :
  start_is_unit_rhs grammar_S0_taken = true ∧
  s "S0" ∈ variables grammar_S0_taken ∧
  ∃ g', change_start_variable ucd grammar_S0_taken = Val g' ∧
        start_variable g' = s "S0" ∧
        start_variable g' ∈ variables grammar_S0_taken ∧
        rules g' = [(s "S0", [[s "S"]; [s "b"]]); (s "S", [[s "a"]])] ∧
        variables g' = variables grammar_S0_taken ∧
        size (variables g') ≠ S (size (variables grammar_S0_taken)) ∧
        language g' [s "b"] ∧
        ¬ language grammar_S0_taken [s "b"].
Proof.
  split; [reflexivity|].
  assert (s "S0" ∈ variables grammar_S0_taken) as HS0.
  { apply (bool_decide_unpack _). vm_compute. exact I. }
  split; [exact HS0|].
  exists (CFG (variables grammar_S0_taken) (terminals grammar_S0_taken)
              [(s "S0", [[s "S"]; [s "b"]]); (s "S", [[s "a"]])] (s "S0")).
  split; [vm_compute; reflexivity|]. split; [done|]. split; [exact HS0|].
  split; [done|]. split; [done|]. split; [cbn [variables]; lia|]. split.
  - apply (yields_rule _ (s "S0") [[s "S"]; [s "b"]] [s "b"]).
    + reflexivity.
    + apply list_elem_of_further, list_elem_of_here.
    + discriminate.
    + apply yields_one_terminal.
      apply (bool_decide_unpack _). vm_compute. exact I.
  - intros Hy%language_S0_taken. discriminate Hy.
Qed.

(** ** Repeated productions *)

Section NoDup.

Variable ucd : N → uclass.

Lemma scan_items_nodup g items :
  rules_nodup g → rules_nodup (foldl (scan_item ucd) g items).
Proof. unfold rules_nodup. by rewrite scan_items_rules. Qed.

Lemma add_rule_items_nodup lhs g rhs :
  rules_nodup g → rules_nodup (foldl (add_rule_item ucd lhs) g rhs).
Proof.
  revert g. induction rhs as [|p rhs IH]; intros g Hg; simpl; [done|].
  apply IH. unfold add_rule_item. by apply add_product_nodup, scan_items_nodup.
Qed.

Lemma add_rule_nodup g lhs rhs :
  rules_nodup g → leaves_nodup (add_rule ucd g lhs rhs).
Proof.
  intros Hg. unfold add_rule. destruct (re_match_lhs ucd lhs); simpl; [|done].
  by apply add_rule_items_nodup.
Qed.

Lemma sort_rules_nodup g : rules_nodup g → leaves_nodup (sort_rules g).
Proof.
  intros Hg. unfold sort_rules.
  destruct (dict_get (rules g) (start_variable g)) as [ps|] eqn:Hps; simpl; [|done].
  unfold rules_nodup. simpl. constructor.
  - by eapply (dict_get_forall (fun ps => NoDup ps)).
  - apply Forall_forall. intros kv [_ Hkv]%list_elem_of_filter.
    unfold rules_nodup in Hg. rewrite Forall_forall in Hg. auto.
Qed.

(** X23.  [change_start_variable] keeps the rule lists free of repeated
    productions. *)
Lemma change_start_variable_nodup g :
  rules_nodup g → leaves_nodup (change_start_variable ucd g).
Proof.
  intros Hg. unfold change_start_variable.
  destruct (start_is_unit_rhs g); [|done].
  rewrite add_rule_valid by reflexivity. cbn [mbind result_bind].
  apply sort_rules_nodup. unfold rules_nodup. simpl.
  by apply (add_rule_items_nodup _ g [[start_variable g]]).
Qed.

Lemma remove_epsilon_rules_nodup pick g :
  dict_wf (rules g) → rules_nodup g → leaves_nodup (remove_epsilon_rules pick g).
Proof.
  intros Hwf Hg.
  destruct (remove_epsilon_rules_returns pick g Hwf) as (g' & -> & _ & Hnd).
  simpl. auto.
Qed.

Lemma for_enumerate_leaves_nodup {A} (body : ContextFreeGrammar → nat → A → result ContextFreeGrammar) :
  (∀ g i x, rules_nodup g → leaves_nodup (body g i x)) →
  ∀ l i g, rules_nodup g → leaves_nodup (for_enumerate body i g l).
Proof.
  intros Hbody. induction l as [|x l IH]; intros i g Hg; [done|].
  cbn [for_enumerate]. specialize (Hbody g i x Hg).
  destruct (body g i x) as [g'| |]; cbn [mbind result_bind]; auto.
Qed.

Lemma inline_unit_nodup pairs g i pair :
  rules_nodup g → leaves_nodup (inline_unit ucd pairs g i pair).
Proof.
  intros Hg. unfold inline_unit. destruct pair as [variable product].
  destruct product as [|p0 rest]; [done|].
  case_bool_decide; [|done].
  destruct (dict_get (rules g) variable) as [ps|] eqn:Hps; [|done].
  destruct (list_remove (p0 :: rest) ps) as [ps'|] eqn:Hrm; [|done].
  assert (rules_nodup (set_rules g (dict_set (rules g) variable ps'))) as Hg1.
  { unfold rules_nodup. simpl.
    apply (dict_set_forall (fun ps => NoDup ps)); [done|].
    eapply sublist_NoDup; [|by eapply list_remove_sublist].
    by eapply (dict_get_forall (fun ps => NoDup ps)). }
  cbv zeta.
  destruct (dict_get (rules (set_rules g (dict_set (rules g) variable ps'))) p0)
    as [body|]; [|done].
  destruct (existsb _ body); [done|]. by apply add_rule_nodup.
Qed.

(** X24.  [remove_unit_rules] keeps the rule lists free of repeated
    productions, whether it returns or raises (the grammar it leaves
    behind is then half-way through the removal). *)
Lemma remove_unit_rules_nodup g :
  rules_nodup g → leaves_nodup (remove_unit_rules ucd g).
Proof.
  intros Hg. unfold remove_unit_rules.
  apply for_enumerate_leaves_nodup; [|done].
  intros. by apply inline_unit_nodup.
Qed.

End NoDup.

(** * Further properties *)

(** ** [sort_rules] *)

Lemma filter_key_other (d : dict) k :
  filter (fun kv : str * list production => kv.1 ≠ k)
         (filter (fun kv : str * list production => kv.1 ≠ k) d)
  = filter (fun kv : str * list production => kv.1 ≠ k) d.
Proof.
  induction d as [|[k1 v1] d IH]; [done|].
  rewrite (filter_cons (fun kv : str * list production => kv.1 ≠ k)).
  destruct (decide ((k1, v1).1 ≠ k)) as [Hk|Hk]; [|exact IH].
  rewrite (filter_cons (fun kv : str * list production => kv.1 ≠ k)).
  destruct (decide ((k1, v1).1 ≠ k)) as [_|Hk']; [|done].
  f_equal. exact IH.
Qed.

Lemma filter_key_absent (d : dict) k :
  k ∉ dict_keys d → filter (fun kv : str * list production => kv.1 ≠ k) d = d.
Proof.
  unfold dict_keys. induction d as [|[k1 v1] d IH]; [done|].
  rewrite fmap_cons. intros [Hk Hd]%not_elem_of_cons.
  rewrite (filter_cons (fun kv : str * list production => kv.1 ≠ k)).
  destruct (decide ((k1, v1).1 ≠ k)) as [_|Hk']; [|by destruct Hk'; auto].
  f_equal. auto.
Qed.

Lemma sorted_permutation (d : dict) k ps :
  dict_wf d → dict_get d k = Some ps →
  (k, ps) :: filter (fun kv : str * list production => kv.1 ≠ k) d ≡ₚ d.
Proof.
  unfold dict_wf, dict_keys. induction d as [|[k1 v1] d IH]; [done|].
  rewrite fmap_cons. intros [Hnotin Hnd]%NoDup_cons. simpl.
  rewrite (filter_cons (fun kv : str * list production => kv.1 ≠ k)).
  destruct (decide (k1 = k)) as [->|Hne].
  - intros [= ->].
    destruct (decide ((k, ps).1 ≠ k)) as [Hk|_]; [done|].
    by rewrite filter_key_absent.
  - intros Hget.
    destruct (decide ((k1, v1).1 ≠ k)) as [_|Hk]; [|by destruct Hk].
    rewrite Permutation_swap. by rewrite IH.
Qed.

(** X1.  When the start variable has an entry in [rules], [sort_rules]
    returns; the start variable's entry is then the first one, the entries
    are the same ones (a permutation, each key once), the other keys keep
    their relative order, every key keeps its productions, and nothing else
    of the grammar changes. *)
Theorem sort_rules_start_first g ps :
  dict_wf (rules g) → dict_get (rules g) (start_variable g) = Some ps →
  ∃ g', sort_rules g = Val g' ∧
        head (rules g') = Some (start_variable g, ps) ∧
        rules g' ≡ₚ rules g ∧ dict_wf (rules g') ∧
        (∀ k, dict_get (rules g') k = dict_get (rules g) k) ∧
        tail (rules g') = filter (fun kv => kv.1 ≠ start_variable g) (rules g) ∧
        variables g' = variables g ∧ terminals g' = terminals g ∧
        start_variable g' = start_variable g.
Proof.
  intros Hwf Hget. unfold sort_rules. rewrite Hget. eexists. split; [done|].
  simpl.
  pose proof (sorted_permutation (rules g) (start_variable g) ps Hwf Hget) as Hperm.
  split; [done|]. split; [done|]. split.
  { unfold dict_wf, dict_keys in *. by rewrite Hperm. }
  split; [|done].
  intros k. destruct (decide (start_variable g = k)) as [<-|Hne]; [done|].
  by apply dict_get_filter_ne.
Qed.

Lemma sort_rules_start_first_witness :
  ∃ g', sort_rules (CFG ∅ ∅ [(s "A", [[s "a"]]); (s "S", [[s "A"]])] (s "S")) = Val g' ∧
        head (rules g') = Some (s "S", [[s "A"]]) ∧
        rules g' ≡ₚ [(s "A", [[s "a"]]); (s "S", [[s "A"]])] ∧
        dict_wf (rules g') ∧
        (∀ k, dict_get (rules g') k
              = dict_get [(s "A", [[s "a"]]); (s "S", [[s "A"]])] k) ∧
        tail (rules g')
        = filter (fun kv => kv.1 ≠ s "S") [(s "A", [[s "a"]]); (s "S", [[s "A"]])] ∧
        variables g' = ∅ ∧ terminals g' = ∅ ∧ start_variable g' = s "S".
Proof.
  apply (sort_rules_start_first
           (CFG ∅ ∅ [(s "A", [[s "a"]]); (s "S", [[s "A"]])] (s "S")) [[s "A"]]).
  - apply (bool_decide_unpack _). vm_compute. exact I.
  - reflexivity.
Defined.

(** X2.  [sort_rules] is idempotent: sorting a sorted grammar changes
    nothing. *)
Theorem sort_rules_idempotent g g' :
  sort_rules g = Val g' → sort_rules g' = Val g'.
Proof.
  unfold sort_rules.
  destruct (dict_get (rules g) (start_variable g)) as [ps|] eqn:Hget; [|done].
  intros [= <-]. simpl. rewrite decide_True by done.
  unfold set_rules. simpl. do 2 f_equal.
  rewrite (filter_cons (fun kv : str * list production => kv.1 ≠ start_variable g)).
  destruct (decide ((start_variable g, ps).1 ≠ start_variable g)) as [Hk|_]; [done|].
  f_equal. apply filter_key_other.
Qed.

Lemma sort_rules_idempotent_witness :
  sort_rules (CFG ∅ ∅ [(s "S", [[s "A"]]); (s "A", [[s "a"]])] (s "S"))
  = Val (CFG ∅ ∅ [(s "S", [[s "A"]]); (s "A", [[s "a"]])] (s "S")).
Proof.
  apply (sort_rules_idempotent
           (CFG ∅ ∅ [(s "A", [[s "a"]]); (s "S", [[s "A"]])] (s "S"))).
  reflexivity.
Defined.

(** ** [add_product] and [add_rule] *)

Lemma prefix_extends acc new : acc `prefix_of` foldl extend acc new.
Proof.
  revert acc. induction new as [|q new IH]; intros acc; simpl; [done|].
  etrans; [|apply IH]. unfold extend.
  destruct (decide (q ∈ acc)); [done|]. by apply prefix_app_r.
Qed.

(** X3.  [add_product] is idempotent: adding the same production to the
    same variable a second time changes nothing. *)
Theorem add_product_idempotent g v p :
  add_product (add_product g v p) v p = add_product g v p.
Proof.
  destruct (add_product_has g v p) as (ps & Hps & Hin).
  pose proof (add_product_variables g v p) as Hvars.
  set (g1 := add_product g v p) in *. clearbody g1.
  unfold add_product. cbn [rules set_variables variables].
  rewrite Hps. rewrite decide_True by done.
  destruct g1 as [vs ts rs st]. unfold set_variables. simpl in *. f_equal.
  rewrite Hvars. apply set_eq. intros x.
  rewrite !elem_of_union, elem_of_singleton. naive_solver.
Qed.

Section AddRuleEffects.

Variable ucd : N → uclass.

Lemma add_rule_items_get lhs g rhs :
  dict_get (rules (foldl (add_rule_item ucd lhs) g rhs)) lhs
  = match rhs with
    | [] => dict_get (rules g) lhs
    | _ => Some (foldl extend (default [] (dict_get (rules g) lhs)) rhs)
    end.
Proof.
  revert g. induction rhs as [|p rhs IH]; intros g; [done|].
  cbn [foldl]. rewrite IH.
  assert (dict_get (rules (add_rule_item ucd lhs g p)) lhs
          = Some (extend (default [] (dict_get (rules g) lhs)) p)) as ->.
  { unfold add_rule_item. rewrite add_product_get_eq, scan_items_rules.
    by destruct (dict_get (rules g) lhs). }
  by destruct rhs.
Qed.

Lemma add_rule_items_get_ne lhs g rhs k :
  lhs ≠ k → dict_get (rules (foldl (add_rule_item ucd lhs) g rhs)) k = dict_get (rules g) k.
Proof.
  intros Hne. revert g. induction rhs as [|p rhs IH]; intros g; [done|].
  cbn [foldl]. rewrite IH. unfold add_rule_item.
  by rewrite add_product_get_ne, scan_items_rules.
Qed.

Lemma add_rule_item_keys lhs g p :
  dict_keys (rules (add_rule_item ucd lhs g p))
  = dict_keys (rules g) ++
    (match dict_get (rules g) lhs with Some _ => [] | None => [lhs] end).
Proof.
  unfold add_rule_item.
  pose proof (scan_items_rules ucd g p) as Hr.
  set (g0 := foldl (scan_item ucd) g p) in *. clearbody g0.
  unfold add_product. cbn [rules set_variables]. rewrite Hr.
  destruct (dict_get (rules g) lhs) as [ps|] eqn:Hget.
  - rewrite app_nil_r.
    destruct (decide (p ∈ ps)); cbn [rules set_rules set_variables]; rewrite ?Hr;
      [done|]. by eapply dict_keys_set_present.
  - cbn [rules set_rules set_variables]. by apply dict_keys_set_absent.
Qed.

Lemma add_rule_items_keys lhs g rhs :
  dict_keys (rules (foldl (add_rule_item ucd lhs) g rhs))
  = dict_keys (rules g) ++
    (match rhs, dict_get (rules g) lhs with
     | _ :: _, None => [lhs]
     | _, _ => []
     end).
Proof.
  revert g. induction rhs as [|p rhs IH]; intros g.
  - by rewrite app_nil_r.
  - cbn [foldl]. rewrite IH, add_rule_item_keys.
    assert (is_Some (dict_get (rules (add_rule_item ucd lhs g p)) lhs)) as [ps' ->].
    { pose proof (add_rule_items_get lhs g [p]) as H. cbn [foldl] in H.
      rewrite H. eauto. }
    destruct (dict_get (rules g) lhs); destruct rhs; by rewrite ?app_nil_r.
Qed.

(** X4.  What a successful [add_rule] does to the two sets: [variables]
    gains [lhs] (unless [rhs] is empty) and the uppercase symbols of [rhs];
    [terminals] gains the lowercase symbols of [rhs] and the marker ε where
    it occurs; nothing is ever removed, and the start variable stays. *)
Theorem add_rule_sets g lhs rhs :
  re_match_lhs ucd lhs = true →
  ∃ g', add_rule ucd g lhs rhs = Val g' ∧
        (∀ x, x ∈ variables g' ↔
              x ∈ variables g ∨ (x = lhs ∧ rhs ≠ []) ∨
              (∃ p, p ∈ rhs ∧ x ∈ p ∧ isupper ucd x = true)) ∧
        (∀ x, x ∈ terminals g' ↔
              x ∈ terminals g ∨
              (∃ p, p ∈ rhs ∧ x ∈ p ∧ (islower ucd x = true ∨ x = epsilon))) ∧
        start_variable g' = start_variable g.
Proof.
  intros Hlhs. eexists. split; [by apply add_rule_valid|].
  split; [apply add_rule_items_variables|]. split; [apply add_rule_items_terminals|].
  generalize g. induction rhs as [|p rhs IH]; intros g0; [done|].
  cbn [foldl]. rewrite IH. unfold add_rule_item.
  by rewrite add_product_start, scan_items_start.
Qed.

(** X5.  What a successful [add_rule] with a non-empty [rhs] does to
    [rules]: the list of [lhs] keeps its old productions in place (a prefix)
    and contains exactly the old productions and those of [rhs], without
    repetition if it had none; the other lists are untouched; the keys keep
    their order, with [lhs] appended when it is new. *)
Theorem add_rule_rules g lhs rhs :
  re_match_lhs ucd lhs = true → rhs ≠ [] →
  ∃ g' body,
    add_rule ucd g lhs rhs = Val g' ∧
    dict_get (rules g') lhs = Some body ∧
    default [] (dict_get (rules g) lhs) `prefix_of` body ∧
    (∀ p, p ∈ body ↔ p ∈ default [] (dict_get (rules g) lhs) ∨ p ∈ rhs) ∧
    (NoDup (default [] (dict_get (rules g) lhs)) → NoDup body) ∧
    (∀ k, k ≠ lhs → dict_get (rules g') k = dict_get (rules g) k) ∧
    dict_keys (rules g')
    = dict_keys (rules g) ++
      (match dict_get (rules g) lhs with Some _ => [] | None => [lhs] end).
Proof.
  intros Hlhs Hrhs. eexists _, _. split; [by apply add_rule_valid|].
  split.
  { rewrite add_rule_items_get. destruct rhs; [done|reflexivity]. }
  split; [apply prefix_extends|]. split; [apply elem_of_extends|].
  split; [apply NoDup_extends|]. split.
  - intros k Hk. by apply add_rule_items_get_ne.
  - rewrite add_rule_items_keys. destruct rhs; [done|].
    by destruct (dict_get (rules g) lhs).
Qed.

(** X6.  The names that [convert_to_proper_form] makes up, [U1], [U2], ...,
    always pass the check of [add_rule]. *)
Theorem U_valid i : re_match_lhs ucd (U i) = true.
Proof.
  unfold U. change (s "U" ++ ?x) with (85 :: x). cbn [re_match_lhs].
  assert (skip_digits ucd (uint_codes (N.to_uint i)) = []) as ->; [|done].
  induction (N.to_uint i) as [|d IH|d IH|d IH|d IH|d IH|d IH|d IH|d IH|d IH|d IH];
    [done|exact IH..].
Qed.

End AddRuleEffects.

Lemma uint_codes_inj d d' : uint_codes d = uint_codes d' → d = d'.
Proof.
  revert d'. induction d as [|d IH|d IH|d IH|d IH|d IH|d IH|d IH|d IH|d IH|d IH];
    intros [|d'|d'|d'|d'|d'|d'|d'|d'|d'|d']; simpl; intros H;
    try discriminate H; try reflexivity;
    injection H as H; f_equal; by apply IH.
Qed.

(** X7.  Different values of the counter give different names. *)
Theorem U_inj i j : U i = U j → i = j.
Proof.
  unfold U. intros H. apply app_inv_head in H.
  by apply Unsigned.to_uint_inj, uint_codes_inj.
Qed.

Lemma add_rule_sets_witness :
  ∃ g', add_rule ascii_only anbn (s "S") [[s "a"; s "B"]] = Val g' ∧
        (∀ x, x ∈ variables g' ↔
              x ∈ variables anbn ∨ (x = s "S" ∧ [[s "a"; s "B"]] ≠ []) ∨
              (∃ p, p ∈ [[s "a"; s "B"]] ∧ x ∈ p ∧ isupper ascii_only x = true)) ∧
        (∀ x, x ∈ terminals g' ↔
              x ∈ terminals anbn ∨
              (∃ p, p ∈ [[s "a"; s "B"]] ∧ x ∈ p ∧
                    (islower ascii_only x = true ∨ x = epsilon))) ∧
        start_variable g' = start_variable anbn.
Proof.
  apply (add_rule_sets ascii_only anbn (s "S") [[s "a"; s "B"]]). reflexivity.
Defined.

Lemma add_rule_rules_witness :
  ∃ g' body,
    add_rule ascii_only anbn (s "T") [[s "a"]; [s "a"]] = Val g' ∧
    dict_get (rules g') (s "T") = Some body ∧
    default [] (dict_get (rules anbn) (s "T")) `prefix_of` body ∧
    (∀ p, p ∈ body ↔
          p ∈ default [] (dict_get (rules anbn) (s "T")) ∨ p ∈ [[s "a"]; [s "a"]]) ∧
    (NoDup (default [] (dict_get (rules anbn) (s "T"))) → NoDup body) ∧
    (∀ k, k ≠ s "T" → dict_get (rules g') k = dict_get (rules anbn) k) ∧
    dict_keys (rules g')
    = dict_keys (rules anbn) ++
      (match dict_get (rules anbn) (s "T") with Some _ => [] | None => [s "T"] end).
Proof.
  apply (add_rule_rules ascii_only anbn (s "T") [[s "a"]; [s "a"]]).
  - reflexivity.
  - discriminate.
Defined.

Lemma U_inj_witness : 3 = 3.
Proof. apply (U_inj 3 3). reflexivity. Defined.

(** ** [generate_combinations] *)

Lemma indices_shift (f : nat → nat) (l : production) v :
  (filter (fun ix : nat * str => ix.2 = v) (imap (fun i x => (f i, x)) l)).*1
  = f <$> indices l v.
Proof.
  revert f. induction l as [|x l IH]; intros f; [done|].
  unfold indices. rewrite !imap_cons.
  rewrite !(filter_cons (fun ix : nat * str => ix.2 = v)).
  pose proof (IH (f ∘ S)) as IHf. pose proof (IH S) as IHS.
  unfold compose in *.
  destruct (decide ((f 0%nat, x).2 = v)) as [Hx|Hx];
    destruct (decide ((0%nat, x).2 = v)) as [Hx'|Hx']; simpl in Hx, Hx';
    try congruence.
  - rewrite !fmap_cons. cbn [fst]. f_equal.
    etrans; [exact IHf|]. etrans; [|by rewrite IHS]. by rewrite <- list_fmap_compose.
  - etrans; [exact IHf|]. etrans; [|by rewrite IHS]. by rewrite <- list_fmap_compose.
Qed.

Lemma indices_cons x xs v :
  indices (x :: xs) v
  = (if decide (x = v) then [0%nat] else []) ++ (S <$> indices xs v).
Proof.
  unfold indices at 1. rewrite imap_cons.
  rewrite (filter_cons (fun ix : nat * str => ix.2 = v)).
  pose proof (indices_shift S xs v) as HS.
  destruct (decide ((0%nat, x).2 = v)) as [Hx|Hx]; simpl in Hx;
    destruct (decide (x = v)); try congruence.
  - rewrite fmap_cons. cbn [fst app]. f_equal. exact HS.
  - exact HS.
Qed.

Lemma blank_out_shift (a : option str) idxs :
  ∀ comb l,
  foldl (fun new_list (ic : nat * bool) =>
           if ic.2 then new_list else <[ic.1 := None]> new_list)
        (a :: l) (zip (S <$> idxs) comb)
  = a :: foldl (fun new_list (ic : nat * bool) =>
                  if ic.2 then new_list else <[ic.1 := None]> new_list)
               l (zip idxs comb).
Proof.
  induction idxs as [|i idxs IH]; intros comb l; [done|].
  destruct comb as [|b comb]; [done|].
  rewrite fmap_cons. cbn [zip zip_with foldl snd fst].
  destruct b; [apply IH|]. rewrite <- IH. done.
Qed.

(** The list [results] of [generate_combinations] before the empty results
    are replaced by ε, by cases on the first symbol. *)
Lemma combinations_nil v :
  generate_combinations [] v = [[epsilon]].
Proof. reflexivity. Qed.

Lemma combinations_raw_other x xs v :
  x ≠ v →
  (fun c => omap id (blank_out (x :: xs) (indices (x :: xs) v) c))
    <$> product01 (length (indices (x :: xs) v))
  = cons x <$> ((fun c => omap id (blank_out xs (indices xs v) c))
                  <$> product01 (length (indices xs v))).
Proof.
  intros Hne. rewrite indices_cons, decide_False by done.
  cbn [app]. rewrite length_fmap, <- list_fmap_compose.
  apply list_fmap_ext. intros _ c _. unfold compose, blank_out.
  rewrite fmap_cons, blank_out_shift. done.
Qed.

Lemma combinations_raw_same xs v :
  (fun c => omap id (blank_out (v :: xs) (indices (v :: xs) v) c))
    <$> product01 (length (indices (v :: xs) v))
  = ((fun c => omap id (blank_out xs (indices xs v) c))
       <$> product01 (length (indices xs v)))
    ++ (cons v <$> ((fun c => omap id (blank_out xs (indices xs v) c))
                      <$> product01 (length (indices xs v)))).
Proof.
  rewrite indices_cons, decide_True by done.
  cbn [app length]. rewrite length_fmap. cbn [product01].
  rewrite fmap_app, <- !list_fmap_compose. f_equal.
  - apply list_fmap_ext. intros _ c _. unfold compose, blank_out.
    rewrite fmap_cons. cbn [zip zip_with foldl snd fst].
    change (<[0%nat:=None]> (Some v :: (Some <$> xs))) with (None :: (Some <$> xs)).
    rewrite blank_out_shift. done.
  - apply list_fmap_ext. intros _ c _. unfold compose, blank_out.
    rewrite fmap_cons. cbn [zip zip_with foldl snd fst].
    rewrite blank_out_shift. done.
Qed.

Lemma generate_combinations_raw item v :
  generate_combinations item v = or_epsilon <$> combinations_raw item v.
Proof.
  unfold generate_combinations, combinations_raw.
  by rewrite <- list_fmap_compose.
Qed.

Lemma combinations_raw_cons x xs v :
  combinations_raw (x :: xs) v
  = if decide (x = v)
    then combinations_raw xs v ++ (cons x <$> combinations_raw xs v)
    else cons x <$> combinations_raw xs v.
Proof.
  destruct (decide (x = v)) as [->|Hne].
  - apply combinations_raw_same.
  - by apply combinations_raw_other.
Qed.

Lemma combinations_raw_absent item v :
  v ∉ item → combinations_raw item v = [item].
Proof.
  induction item as [|x xs IH]; [done|].
  intros [Hx Hxs]%not_elem_of_cons.
  rewrite combinations_raw_cons, decide_False by done. by rewrite IH.
Qed.


Lemma combinations_raw_head item v :
  head (combinations_raw item v) = Some (filter (fun x : str => x ≠ v) item).
Proof.
  induction item as [|x xs IH]; [done|].
  rewrite combinations_raw_cons.
  rewrite (filter_cons (fun x : str => x ≠ v)).
  destruct (combinations_raw xs v) as [|r rs]; [done|].
  injection IH as ->.
  destruct (decide (x = v)) as [->|Hne].
  - destruct (decide (v ≠ v)) as [Hv|_]; [done|]. done.
  - destruct (decide (x ≠ v)) as [_|Hx]; [done|]. by destruct Hx.
Qed.

Lemma combinations_raw_last item v :
  last (combinations_raw item v) = Some item.
Proof.
  induction item as [|x xs IH]; [done|].
  rewrite combinations_raw_cons.
  apply last_Some in IH as [l' Hl'].
  assert (last (cons x <$> combinations_raw xs v) = Some (x :: xs)) as Hl.
  { rewrite Hl', fmap_app. apply last_snoc. }
  destruct (decide (x = v)) as [->|Hne]; [|done].
  apply last_Some in Hl as [l'' ->]. by rewrite app_assoc, last_snoc.
Qed.

Lemma combinations_raw_length item v :
  length (combinations_raw item v)
  = (2 ^ length (filter (fun x : str => x = v) item))%nat.
Proof.
  induction item as [|x xs IH]; [done|].
  rewrite combinations_raw_cons.
  rewrite (filter_cons (fun x : str => x = v)).
  destruct (decide (x = v)) as [->|Hne].
  - rewrite length_app, length_fmap. cbn [length].
    set (n := length (filter (fun x : str => x = v) xs)).
    change (length (combinations_raw xs v) = (2 ^ n)%nat) in IH.
    change (2 ^ S n)%nat with (2 * 2 ^ n)%nat.
    rewrite <- IH. clear. generalize (combinations_raw xs v). intros l.
    unfold production. lia.
  - rewrite length_fmap. exact IH.
Qed.

(** X8.  A production in which the variable does not occur has one
    combination, itself; the empty production gives [['ε']]. *)
Theorem generate_combinations_absent item variable :
  variable ∉ item →
  generate_combinations item variable
  = [match item with [] => [epsilon] | _ => item end].
Proof.
  intros Hv. by rewrite generate_combinations_raw, combinations_raw_absent.
Qed.


(** X10.  There are [2^k] combinations for [k] occurrences of the
    variable; the first one deletes every occurrence and the last one keeps
    them all (with [['ε']] in place of an empty production). *)
Theorem generate_combinations_ends item variable :
  length (generate_combinations item variable)
  = (2 ^ length (filter (fun x : str => x = variable) item))%nat ∧
  head (generate_combinations item variable)
  = Some (or_epsilon (filter (fun x : str => x ≠ variable) item)) ∧
  last (generate_combinations item variable) = Some (or_epsilon item).
Proof.
  rewrite generate_combinations_raw. split; [|split].
  - by rewrite length_fmap, combinations_raw_length.
  - pose proof (combinations_raw_head item variable) as H.
    destruct (combinations_raw item variable); [done|]. by injection H as ->.
  - by rewrite fmap_last, combinations_raw_last.
Qed.

Lemma generate_combinations_absent_witness :
  generate_combinations [s "a"; s "b"] (s "S") = [[s "a"; s "b"]].
Proof.
  apply (generate_combinations_absent [s "a"; s "b"] (s "S")).
  apply (bool_decide_unpack _). vm_compute. exact I.
Defined.


(** ** Runs that return *)

Lemma bind_Val {A B} (r : result A) (f : A → result B) b :
  r ≫= f = Val b → ∃ a, r = Val a ∧ f a = Val b.
Proof. destruct r as [a| |]; [|done..]. intros H. by exists a. Qed.

Lemma for_each_Val_ind {A St} (P : St → Prop) (body : St → A → result St) l :
  (∀ st x st', P st → body st x = Val st' → P st') →
  ∀ st st', P st → for_each body st l = Val st' → P st'.
Proof.
  intros Hbody. induction l as [|x l IH]; intros st st' Hst.
  - by intros [= <-].
  - cbn [for_each]. intros (st1 & H1 & H2)%bind_Val. eauto.
Qed.

Lemma for_enumerate_Val_ind {A St} (P : St → Prop) (body : St → nat → A → result St) l :
  (∀ st i x st', P st → body st i x = Val st' → P st') →
  ∀ i st st', P st → for_enumerate body i st l = Val st' → P st'.
Proof.
  intros Hbody. induction l as [|x l IH]; intros i st st' Hst.
  - by intros [= <-].
  - cbn [for_enumerate]. intros (st1 & H1 & H2)%bind_Val. eauto.
Qed.

#[global] Instance grows_preorder : PreOrder grows.
Proof.
  split.
  - by intros g.
  - intros g1 g2 g3 (H1 & H2 & H3) (H4 & H5 & H6).
    split; [congruence|]. split; etrans; eauto.
Qed.

Lemma grows_set_rules g d : grows g (set_rules g d).
Proof. done. Qed.

Lemma grows_add_product g v p : grows g (add_product g v p).
Proof.
  split; [apply add_product_start|]. split.
  - rewrite add_product_variables. apply union_subseteq_r.
  - by rewrite add_product_terminals.
Qed.

Lemma grows_add_products g v new :
  grows g (foldl (fun g p => add_product g v p) g new).
Proof.
  revert g. induction new as [|q new IH]; intros g; simpl; [done|].
  etrans; [apply (grows_add_product g v q)|apply IH].
Qed.

Lemma grows_replace_products g var new g' :
  replace_products g var new = Val g' → grows g g'.
Proof.
  unfold replace_products. destruct (dict_get (rules g) var); [|done].
  intros [= <-]. etrans; [|apply grows_add_products]. apply grows_set_rules.
Qed.

(** ** [remove_epsilon_rules]: what it leaves *)

Lemma initial_nullable_empty g :
  (∀ k ps, (k, ps) ∈ rules g → [epsilon] ∉ ps) → initial_nullable g = ∅.
Proof.
  intros Hno. unfold initial_nullable. apply set_eq. intros v.
  rewrite elem_of_list_to_set, list_elem_of_fmap. split; [|by intros ?%not_elem_of_empty].
  intros ([k ps] & _ & [Heps Hin]%list_elem_of_filter).
  apply bool_decide_eq_true in Heps. by apply Hno in Hin.
Qed.

Lemma remove_epsilon_loop_empty fuel pick t g visited trace :
  remove_epsilon_loop fuel pick t g visited ∅ trace = Val (g, trace).
Proof.
  assert (set_pop (pick t) ∅ = None) as Hpop by by apply set_pop_None.
  destruct fuel; cbn [remove_epsilon_loop]; by rewrite Hpop.
Qed.

Lemma remove_epsilon_rules_skip pick g :
  (∀ k ps, (k, ps) ∈ rules g → [epsilon] ∉ ps) →
  remove_epsilon_rules pick g = Val g.
Proof.
  intros Hno. unfold remove_epsilon_rules, remove_epsilon_trace.
  by rewrite initial_nullable_empty, remove_epsilon_loop_empty.
Qed.

(** X11.  On a grammar without any production ε, [remove_epsilon_rules]
    changes nothing. *)
Theorem remove_epsilon_rules_no_epsilon pick g :
  (∀ k ps, (k, ps) ∈ rules g → [epsilon] ∉ ps) →
  remove_epsilon_rules pick g = Val g.
Proof.
  intros Hno. unfold remove_epsilon_rules, remove_epsilon_trace.
  rewrite (initial_nullable_empty g Hno).
  by rewrite remove_epsilon_loop_empty.
Qed.

Lemma rewrite_var_cover variable visited g nullable var g' nullable' :
  rewrite_var variable visited (g, nullable) var = Val (g', nullable') →
  eps_cover visited g nullable → eps_cover visited g' nullable'.
Proof.
  unfold rewrite_var.
  destruct (dict_get (rules g) var) as [pros|] eqn:Hpros; [|done].
  destruct (replace_products_spec g var pros (expand variable pros) Hpros)
    as (g1 & -> & _ & Hget & Hother & _).
  cbn [mbind result_bind]. rewrite Hget. intros [= <- <-] Hcover v Hv.
  destruct (decide (v = var)) as [->|Hne].
  - destruct Hv as (ps & Hps & Hin). rewrite Hget in Hps. injection Hps as <-.
    unfold has_epsilon. rewrite bool_decide_eq_true_2 by done.
    destruct (decide (var ∈ visited)) as [?|Hvis]; [by right|].
    rewrite bool_decide_eq_true_2 by done. left.
    apply elem_of_union. left. by apply elem_of_singleton.
  - destruct Hv as (ps & Hps & Hin). rewrite Hother in Hps by done.
    destruct (Hcover v) as [?|?]; [by exists ps| |by right].
    left. destruct (has_epsilon _ && _); [|done]. apply elem_of_union. by right.
Qed.

Lemma rewrite_var_grows variable visited g nullable var g' nullable' :
  rewrite_var variable visited (g, nullable) var = Val (g', nullable') →
  grows g g'.
Proof.
  unfold rewrite_var.
  destruct (dict_get (rules g) var) as [pros|] eqn:Hpros; [|done].
  destruct (replace_products g var (expand variable pros)) as [g1| |] eqn:Hrep;
    [|done..].
  cbn [mbind result_bind]. destruct (dict_get (rules g1) var); [|done].
  intros [= <- _]. by eapply grows_replace_products.
Qed.

Lemma remove_epsilon_loop_leaves pick fuel :
  ∀ t g visited nullable trace g' trace',
  remove_epsilon_loop fuel pick t g visited nullable trace = Val (g', trace') →
  eps_cover visited g nullable → (∀ x, x ∈ visited → x ∈ trace) →
  grows g g' ∧ ∀ v, has_product g' v [epsilon] → v ∈ trace'.
Proof.
  induction fuel as [|fuel IH]; intros t g visited nullable trace g' trace';
    cbn [remove_epsilon_loop];
    destruct (set_pop (pick t) nullable) as [[v0 n0]|] eqn:Hpop; try done.
  - intros [= <- <-] Hcover Hvis. apply set_pop_None in Hpop as ->.
    split; [done|]. intros v [?%not_elem_of_empty|?]%Hcover; [done|auto].
  - apply set_pop_Some in Hpop as [Hv0 ->].
    destruct (dict_get (rules g) v0) as [ps|] eqn:Hps; [|done].
    destruct (list_remove [epsilon] ps) as [ps'|] eqn:Hrm; [|done].
    cbv zeta. set (g1 := set_rules g (dict_set (rules g) v0 ps')).
    intros ([g2 n2] & Hfe & Hrun)%bind_Val Hcover Hvis. cbn [fst snd] in Hrun.
    assert (eps_cover ({[v0]} ∪ visited) g1 (nullable ∖ {[v0]})) as Hcover1.
    { intros v (qs & Hqs & Hq). destruct (decide (v = v0)) as [->|Hne].
      - right. apply elem_of_union. left. by apply elem_of_singleton.
      - simpl in Hqs. rewrite dict_get_set_ne in Hqs by done.
        destruct (Hcover v) as [?|?]; [by exists qs| |].
        + left. apply elem_of_difference. split; [done|].
          by apply not_elem_of_singleton.
        + right. apply elem_of_union. by right. }
    assert (eps_cover ({[v0]} ∪ visited) g2 n2 ∧ grows g1 g2) as [Hcover2 Hgrows2].
    { apply (for_each_Val_ind
               (fun st => eps_cover ({[v0]} ∪ visited) st.1 st.2 ∧ grows g1 st.1)
               (rewrite_var v0 ({[v0]} ∪ visited)) (dict_keys (rules g1))
               ltac:(intros [ga na] x [gb nb] [Hc Hg] Hb; split;
                     [by eapply rewrite_var_cover
                     |etrans; [exact Hg|by eapply rewrite_var_grows]])
               (g1, nullable ∖ {[v0]}) (g2, n2)); [|exact Hfe].
      split; [exact Hcover1|done]. }
    destruct (IH _ _ _ _ _ _ _ Hrun Hcover2) as [Hgrows Hleft].
    { intros x [->%elem_of_singleton|Hx]%elem_of_union; apply elem_of_app;
        [right; apply list_elem_of_here|left; auto]. }
    split; [|done]. etrans; [apply (grows_set_rules g)|]. by etrans.
  - intros [= <- <-] Hcover Hvis. apply set_pop_None in Hpop as ->.
    split; [done|]. intros v [?%not_elem_of_empty|?]%Hcover; [done|auto].
Qed.

Lemma initial_nullable_cover g : eps_cover ∅ g (initial_nullable g).
Proof.
  intros v (ps & Hps & Hin). left. unfold initial_nullable.
  apply elem_of_list_to_set, list_elem_of_fmap. exists (v, ps). split; [done|].
  apply list_elem_of_filter. split; [|by apply dict_get_elem_of].
  unfold has_epsilon. by apply bool_decide_eq_true.
Qed.

(** X12.  A variable that has the production ε when the loop of
    [remove_epsilon_rules] has ended is one of the variables the loop
    popped: ε never stays with a variable that was not processed. *)
Theorem remove_epsilon_rules_marks fuel pick g g' trace v :
  remove_epsilon_trace fuel pick g = Val (g', trace) →
  has_product g' v [epsilon] → v ∈ trace.
Proof.
  unfold remove_epsilon_trace. intros Hrun.
  apply (remove_epsilon_loop_leaves pick fuel _ _ _ _ _ _ _ Hrun).
  - apply initial_nullable_cover.
  - by intros x ?%not_elem_of_empty.
Qed.

Lemma remove_epsilon_rules_grows pick g g' :
  remove_epsilon_rules pick g = Val g' → grows g g'.
Proof.
  unfold remove_epsilon_rules, remove_epsilon_trace.
  destruct (remove_epsilon_loop _ _ _ _ _ _ _) as [[g1 tr]| |] eqn:Hrun; [|done..].
  intros [= <-].
  apply (remove_epsilon_loop_leaves pick _ _ _ _ _ _ _ _ Hrun).
  - apply initial_nullable_cover.
  - by intros x ?%not_elem_of_empty.
Qed.

(** X13.  [remove_epsilon_rules] returns (whatever [set.pop] picks) with
    the same keys in the same order, the same start variable, no variable
    or terminal removed from the two sets, and no repeated production if
    there was none. *)
Theorem remove_epsilon_rules_frame pick g :
  dict_wf (rules g) →
  ∃ g', remove_epsilon_rules pick g = Val g' ∧
        dict_keys (rules g') = dict_keys (rules g) ∧
        start_variable g' = start_variable g ∧
        variables g ⊆ variables g' ∧ terminals g ⊆ terminals g' ∧
        (rules_nodup g → rules_nodup g').
Proof.
  intros Hwf.
  destruct (remove_epsilon_rules_returns pick g Hwf) as (g' & Hrun & HK & Hnd).
  destruct (remove_epsilon_rules_grows pick g g' Hrun) as (Hs & Hv & Ht).
  by exists g'.
Qed.

Lemma remove_epsilon_rules_no_epsilon_witness :
  remove_epsilon_rules (fun _ => 0%nat) unit_chain = Val unit_chain.
Proof.
  apply (remove_epsilon_rules_no_epsilon (fun _ => 0%nat) unit_chain).
  intros k ps Hin. apply (bool_decide_unpack _).
  unfold unit_chain in Hin. cbn [rules] in Hin.
  repeat (apply elem_of_cons in Hin as [Hin|Hin]; [by injection Hin as -> ->|]).
  by apply elem_of_nil in Hin.
Defined.

Lemma remove_epsilon_rules_marks_witness : s "A" ∈ [s "A"].
Proof.
  apply (remove_epsilon_rules_marks 2 (fun _ => 0%nat) nullable_pair
           (CFG (list_to_set [s "S"; s "A"]) (list_to_set [s "a"; s "b"])
                [(s "S", [[s "a"]; [s "a"; s "A"]]);
                 (s "A", [[epsilon]; [s "A"]; [s "A"; s "A"]; [s "b"]])]
                (s "S"))
           [s "A"] (s "A")).
  - vm_compute. reflexivity.
  - eexists. split; [reflexivity|]. apply list_elem_of_here.
Defined.

Lemma remove_epsilon_rules_frame_witness :
  ∃ g', remove_epsilon_rules (fun _ => 0%nat) nullable_pair = Val g' ∧
        dict_keys (rules g') = dict_keys (rules nullable_pair) ∧
        start_variable g' = start_variable nullable_pair ∧
        variables nullable_pair ⊆ variables g' ∧
        terminals nullable_pair ⊆ terminals g' ∧
        (rules_nodup nullable_pair → rules_nodup g').
Proof.
  apply (remove_epsilon_rules_frame (fun _ => 0%nat) nullable_pair).
  apply (bool_decide_unpack _). vm_compute. exact I.
Defined.

(** ** [remove_unit_rules]: when it returns *)

Lemma list_remove_other x y l l' :
  list_remove x l = Some l' → y ≠ x → y ∈ l → y ∈ l'.
Proof.
  revert l'. induction l as [|z l IH]; intros l'; simpl; [done|].
  destruct (decide (z = x)) as [->|Hz].
  - intros [= <-] Hne [?|?]%elem_of_cons; [congruence|done].
  - destruct (list_remove x l) as [l0|]; simpl; [|done].
    intros [= <-] Hne [->|?]%elem_of_cons.
    + apply list_elem_of_here.
    + apply list_elem_of_further. auto.
Qed.

Lemma unit_pairs_spec g A p :
  (A, p) ∈ unit_pairs g ↔
  ∃ B ps, p = [B] ∧ B ∈ variables g ∧ (A, ps) ∈ rules g ∧ p ∈ ps.
Proof.
  unfold unit_pairs. rewrite list_elem_of_bind. split.
  - intros ([k ps] & (product & Hin & Hp)%list_elem_of_bind & Hkv). simpl in *.
    destruct product as [|p0 [|]]; try by apply elem_of_nil in Hin.
    case_bool_decide as Hv; [|by apply elem_of_nil in Hin].
    apply list_elem_of_singleton in Hin. injection Hin as -> ->.
    by exists p0, ps.
  - intros (B & ps & -> & HB & Hin & Hp). exists (A, ps). split; [|done].
    apply list_elem_of_bind. exists [B]. split; [|done]. simpl.
    rewrite bool_decide_eq_true_2 by done. apply list_elem_of_here.
Qed.

Lemma NoDup_unit_pairs g :
  dict_wf (rules g) → rules_nodup g → NoDup (unit_pairs g).
Proof.
  intros Hwf Hnd. unfold unit_pairs. apply NoDup_bind.
  - intros [k1 ps1] [k2 ps2] [A p] H1 H2
      (q1 & Hq1 & _)%list_elem_of_bind (q2 & Hq2 & _)%list_elem_of_bind.
    simpl in *.
    assert (k1 = A).
    { destruct q1 as [|? [|]]; try by apply elem_of_nil in Hq1.
      case_bool_decide; [|by apply elem_of_nil in Hq1].
      apply list_elem_of_singleton in Hq1. congruence. }
    assert (k2 = A).
    { destruct q2 as [|? [|]]; try by apply elem_of_nil in Hq2.
      case_bool_decide; [|by apply elem_of_nil in Hq2].
      apply list_elem_of_singleton in Hq2. congruence. }
    subst. apply (dict_elem_of_get _ _ _ Hwf) in H1, H2. congruence.
  - intros [k ps] Hin. simpl. apply NoDup_bind.
    + intros q1 q2 [A p] _ _ Hq1 Hq2.
      destruct q1 as [|? [|]]; try by apply elem_of_nil in Hq1.
      destruct q2 as [|? [|]]; try by apply elem_of_nil in Hq2.
      repeat case_bool_decide; try by apply elem_of_nil in Hq1.
      * apply list_elem_of_singleton in Hq1, Hq2. congruence.
      * by apply elem_of_nil in Hq2.
    + intros q _. destruct q as [|? [|]]; try apply NoDup_nil_2.
      case_bool_decide; [apply NoDup_singleton|apply NoDup_nil_2].
    + unfold rules_nodup in Hnd. rewrite Forall_forall in Hnd.
      by apply (Hnd (k, ps)).
  - unfold dict_wf, dict_keys in Hwf. by eapply NoDup_fmap_1.
Qed.

Section UnitRules.

Variable ucd : N → uclass.

Lemma grows_scan_item g item : grows g (scan_item ucd g item).
Proof.
  split; [apply scan_item_start|]. split; intros x Hx.
  - apply scan_item_variables. by left.
  - apply scan_item_terminals. by left.
Qed.

Lemma grows_add_rule g lhs rhs g' : add_rule ucd g lhs rhs = Val g' → grows g g'.
Proof.
  unfold add_rule. destruct (re_match_lhs ucd lhs); [|done]. simpl.
  intros [= <-]. revert g. induction rhs as [|p rhs IH]; intros g; [done|].
  cbn [foldl]. etrans; [|apply IH]. unfold add_rule_item.
  etrans; [|apply grows_add_product].
  generalize g. induction p as [|x p IHp]; intros g0; [done|].
  cbn [foldl]. etrans; [apply (grows_scan_item g0 x)|apply IHp].
Qed.

Lemma inline_units_self pairs g l :
  ∀ i, (∀ A p, (A, p) ∈ l → p = [A]) →
       for_enumerate (inline_unit ucd pairs) i g l = Val g.
Proof.
  induction l as [|[A p] l IH]; intros i Hl; [done|].
  cbn [for_enumerate].
  rewrite (Hl A p) by apply list_elem_of_here. cbn [inline_unit].
  rewrite bool_decide_eq_false_2 by (intros H; by apply H).
  cbn [mbind result_bind]. apply IH. intros A' p' Hin.
  by apply Hl, list_elem_of_further.
Qed.

(** X14.  When every unit production is a self-loop [A → A] (in
    particular when there is none), [remove_unit_rules] changes nothing:
    self-loops are skipped, not removed. *)
Theorem remove_unit_rules_self_loops g :
  (∀ A p, (A, p) ∈ unit_pairs g → p = [A]) → remove_unit_rules ucd g = Val g.
Proof.
  intros Hloops. unfold remove_unit_rules.
  generalize (unit_pairs g) at 1 as pairs. intros pairs.
  apply inline_units_self. exact Hloops.
Qed.

Lemma inline_units_return pairs K :
  (∀ k, k ∈ K → re_match_lhs ucd k = true) →
  ∀ l i g,
  NoDup l →
  (∀ A p, (A, p) ∈ l → ∃ B, p = [B] ∧ B ∈ K ∧ has_product g A p) →
  dict_keys (rules g) = K →
  ∃ g', for_enumerate (inline_unit ucd pairs) i g l = Val g' ∧
        dict_keys (rules g') = K ∧ grows g g'.
Proof.
  intros Hvalid. induction l as [|[A p] l IH]; intros i g Hnd Hl HK.
  - by exists g.
  - apply NoDup_cons in Hnd as [Hnotin Hnd].
    destruct (Hl A p) as (B & -> & HB & (ps & Hps & Hin)); [apply list_elem_of_here|].
    assert (∀ g1, dict_keys (rules g1) = K → grows g g1 →
                  (∀ A' p', (A', p') ∈ l → has_product g A' p' →
                            has_product g1 A' p') →
                  ∃ g', for_enumerate (inline_unit ucd pairs) (S i) g1 l = Val g' ∧
                        dict_keys (rules g') = K ∧ grows g g') as Hnext.
    { intros g1 HK1 Hg1 Hkeep.
      destruct (IH (S i) g1 Hnd) as (g' & Hrun & HK' & Hg'); [|done|].
      - intros A' p' Hin'.
        destruct (Hl A' p') as (B' & -> & HB' & Hhas);
          [by apply list_elem_of_further|].
        exists B'. split; [done|]. split; [done|]. by apply Hkeep.
      - exists g'. split; [done|]. split; [done|]. by etrans. }
    cbn [for_enumerate inline_unit].
    case_bool_decide as HBA; cbn [mbind result_bind]; [|by apply Hnext].
    rewrite Hps. destruct (list_remove_Some [B] ps Hin) as [ps' Hrm]. rewrite Hrm.
    cbv zeta. set (g1 := set_rules g (dict_set (rules g) A ps')).
    assert (dict_keys (rules g1) = K) as HK1.
    { simpl. rewrite <- HK. by eapply dict_keys_set_present. }
    assert (∀ A' p', (A', p') ∈ l → has_product g A' p' → has_product g1 A' p')
      as Hkeep1.
    { intros A' p' Hin' (qs & Hqs & Hq). destruct (decide (A' = A)) as [->|Hne].
      - exists ps'. split; [apply dict_get_set_eq|].
        rewrite Hps in Hqs. injection Hqs as <-.
        eapply list_remove_other; [exact Hrm| |done].
        intros ->. by apply Hnotin.
      - exists qs. simpl. by rewrite dict_get_set_ne. }
    destruct (dict_get_key (rules g1) B) as [body Hbody]; [by rewrite HK1|].
    rewrite Hbody.
    destruct (existsb _ body); cbn [mbind result_bind].
    + apply Hnext; [done|apply grows_set_rules|done].
    + assert (A ∈ K) as HA by (rewrite <- HK; by eapply dict_get_Some_key).
      rewrite add_rule_valid by auto. cbn [mbind result_bind].
      apply Hnext.
      * rewrite add_rule_items_keys, HK1.
        assert (is_Some (dict_get (rules g1) A)) as [? ->]
          by (apply dict_get_key; by rewrite HK1).
        destruct body; by rewrite app_nil_r.
      * etrans; [apply (grows_set_rules g)|].
        apply (grows_add_rule g1 A body). by apply add_rule_valid, Hvalid.
      * intros A' p' Hin' Hhas. by apply add_rule_items_keep, Hkeep1.
Qed.

(** X15.  [remove_unit_rules] returns, without [KeyError], [ValueError] or
    [InvalidRule], on every grammar whose rules list no production twice,
    whose keys all pass the check of [add_rule] and whose declared
    variables all have an entry in [rules]; the keys and their order, and
    the start variable, are unchanged, and no variable or terminal is
    removed from the two sets. *)
Theorem remove_unit_rules_returns g :
  dict_wf (rules g) → rules_nodup g →
  (∀ k, k ∈ dict_keys (rules g) → re_match_lhs ucd k = true) →
  (∀ x, x ∈ variables g → x ∈ dict_keys (rules g)) →
  ∃ g', remove_unit_rules ucd g = Val g' ∧
        dict_keys (rules g') = dict_keys (rules g) ∧
        start_variable g' = start_variable g ∧
        variables g ⊆ variables g' ∧ terminals g ⊆ terminals g'.
Proof.
  intros Hwf Hnd Hvalid Hvars. unfold remove_unit_rules.
  destruct (inline_units_return (unit_pairs g) (dict_keys (rules g)) Hvalid
              (unit_pairs g) 0%nat g) as (g' & Hrun & HK & Hs & Hv & Ht).
  - by apply NoDup_unit_pairs.
  - intros A p (B & ps & -> & HB & Hin & Hp)%unit_pairs_spec.
    exists B. split; [done|]. split; [auto|].
    exists ps. split; [by apply dict_elem_of_get|done].
  - done.
  - by exists g'.
Qed.

End UnitRules.

Lemma remove_unit_rules_self_loops_witness :
  remove_unit_rules ascii_only
    (CFG (list_to_set [s "S"]) (list_to_set [s "a"]) [(s "S", [[s "S"]; [s "a"]])] (s "S"))
  = Val (CFG (list_to_set [s "S"]) (list_to_set [s "a"])
             [(s "S", [[s "S"]; [s "a"]])] (s "S")).
Proof.
  apply (remove_unit_rules_self_loops ascii_only).
  intros A p Hin. apply (bool_decide_unpack _).
  vm_compute in Hin. apply list_elem_of_singleton in Hin. by injection Hin as -> ->.
Defined.

Lemma remove_unit_rules_returns_witness :
  ∃ g', remove_unit_rules ascii_only unit_chain = Val g' ∧
        dict_keys (rules g') = dict_keys (rules unit_chain) ∧
        start_variable g' = start_variable unit_chain ∧
        variables unit_chain ⊆ variables g' ∧ terminals unit_chain ⊆ terminals g'.
Proof.
  apply (remove_unit_rules_returns ascii_only unit_chain).
  - apply (bool_decide_unpack _). vm_compute. exact I.
  - apply (bool_decide_unpack _). vm_compute. exact I.
  - intros k Hk. unfold unit_chain in Hk. cbn [rules dict_keys] in Hk.
    cbn [fmap list_fmap fst] in Hk.
    repeat (apply elem_of_cons in Hk as [->|Hk]; [reflexivity|]).
    by apply elem_of_nil in Hk.
  - intros x Hx. unfold unit_chain in *. cbn [rules variables dict_keys] in *.
    apply elem_of_list_to_set in Hx. exact Hx.
Defined.

(** ** [convert_to_proper_form] and [main] on a grammar in proper form *)

Section Settled.

Variable ucd : N → uclass.

Lemma shorten_settled variable product g i :
  settled_product g product → shorten ucd variable product (g, i) = Val (g, i).
Proof. by destruct product as [|a [|b [|c r]]]. Qed.

Lemma step1_for_settled fuel variable products g i :
  dict_get (rules g) variable = Some products →
  Forall (settled_product g) products →
  ∀ k, (k ≤ length products)%nat → (length products < k + fuel)%nat →
       step1_for ucd fuel variable k (g, i) = Val (g, i).
Proof.
  intros Hget Hall. induction fuel as [|fuel IH]; intros k Hk Hfuel; [lia|].
  cbn [step1_for fst]. rewrite Hget.
  destruct (products !! k) as [product|] eqn:Hprod; [|done].
  rewrite shorten_settled.
  - cbn [mbind result_bind]. apply IH; [|lia].
    apply lookup_lt_Some in Hprod. lia.
  - rewrite Forall_forall in Hall. apply Hall. by eapply list_elem_of_lookup_2.
Qed.

Lemma step1_while_settled g i :
  settled g →
  ∀ fuel index,
  (index ≤ length (rules g))%nat → (length (rules g) - index < fuel)%nat →
  Forall (fun kv => (length (rules g) - index + length kv.2 < fuel)%nat) (rules g) →
  step1_while ucd fuel index (g, i) = Val (g, i).
Proof.
  intros Hset. induction fuel as [|fuel IH]; intros index Hidx Hfuel Hbound; [lia|].
  cbn [step1_while fst].
  destruct (dict_keys (rules g) !! index) as [variable|] eqn:Hvar; [|done].
  assert (index < length (rules g))%nat as Hlt.
  { apply lookup_lt_Some in Hvar. unfold dict_keys in Hvar.
    by rewrite length_fmap in Hvar. }
  destruct (dict_get_key (rules g) variable) as [products Hget];
    [by eapply list_elem_of_lookup_2|].
  rewrite (step1_for_settled (S fuel) variable products g i Hget).
  - cbn [mbind result_bind]. apply IH; [lia|lia|].
    eapply Forall_impl; [exact Hbound|]. intros kv Hkv. simpl in *. lia.
  - by eapply (dict_get_forall (fun ps => Forall (settled_product g) ps)).
  - lia.
  - apply dict_get_elem_of in Hget. rewrite Forall_forall in Hbound.
    specialize (Hbound _ Hget). simpl in Hbound. lia.
Qed.

Lemma isolate_terminals_settled variable j products product g i :
  dict_get (rules g) variable = Some products → products !! j = Some product →
  settled_product g product →
  isolate_terminals ucd variable j product (g, i) = Val (g, i).
Proof.
  intros Hget Hprod Hset. destruct product as [|a [|b [|c r]]]; try done.
  destruct Hset as [Ha Hb]. cbn [isolate_terminals fst].
  rewrite bool_decide_eq_false_2 by done. cbn [mbind result_bind fst].
  unfold product_at. rewrite Hget, Hprod. cbn [mbind result_bind].
  by rewrite bool_decide_eq_false_2.
Qed.

Lemma step2_for_settled fuel variable products g i :
  dict_get (rules g) variable = Some products →
  Forall (settled_product g) products →
  ∀ j, (j ≤ length products)%nat → (length products < j + fuel)%nat →
       step2_for ucd fuel variable j (g, i) = Val (g, i).
Proof.
  intros Hget Hall. induction fuel as [|fuel IH]; intros j Hj Hfuel; [lia|].
  cbn [step2_for fst]. rewrite Hget.
  destruct (products !! j) as [product|] eqn:Hprod; [|done].
  rewrite (isolate_terminals_settled variable j products product g i Hget Hprod).
  - cbn [mbind result_bind]. apply IH; [|lia].
    apply lookup_lt_Some in Hprod. lia.
  - rewrite Forall_forall in Hall. apply Hall. by eapply list_elem_of_lookup_2.
Qed.

Lemma step2_while_settled g i :
  settled g →
  ∀ fuel index,
  (index ≤ length (rules g))%nat → (length (rules g) - index < fuel)%nat →
  Forall (fun kv => (length (rules g) - index + length kv.2 < fuel)%nat) (rules g) →
  step2_while ucd fuel index (g, i) = Val (g, i).
Proof.
  intros Hset. induction fuel as [|fuel IH]; intros index Hidx Hfuel Hbound; [lia|].
  cbn [step2_while fst].
  destruct (dict_keys (rules g) !! index) as [variable|] eqn:Hvar; [|done].
  assert (index < length (rules g))%nat as Hlt.
  { apply lookup_lt_Some in Hvar. unfold dict_keys in Hvar.
    by rewrite length_fmap in Hvar. }
  destruct (dict_get_key (rules g) variable) as [products Hget];
    [by eapply list_elem_of_lookup_2|].
  rewrite (step2_for_settled (S fuel) variable products g i Hget).
  - cbn [mbind result_bind]. apply IH; [lia|lia|].
    eapply Forall_impl; [exact Hbound|]. intros kv Hkv. simpl in *. lia.
  - by eapply (dict_get_forall (fun ps => Forall (settled_product g) ps)).
  - lia.
  - apply dict_get_elem_of in Hget. rewrite Forall_forall in Hbound.
    specialize (Hbound _ Hget). simpl in Hbound. lia.
Qed.

Lemma convert_to_proper_form_skip fuel g :
  settled g → (length (rules g) < fuel)%nat →
  Forall (fun kv => (length (rules g) + length kv.2 < fuel)%nat) (rules g) →
  convert_to_proper_form ucd fuel g = Val g.
Proof.
  intros Hset Hfuel Hbound. unfold convert_to_proper_form.
  assert (Forall (fun kv => (length (rules g) - 0 + length kv.2 < fuel)%nat) (rules g))
    as Hbound0.
  { eapply Forall_impl; [exact Hbound|]. intros kv Hkv. simpl in *. lia. }
  rewrite step1_while_settled by (done || lia). cbn [mbind result_bind].
  rewrite step2_while_settled by (done || lia). done.
Qed.

(** X16.  [convert_to_proper_form] changes nothing, and mints no name,
    when every production has at most two symbols and no production of two
    symbols contains a terminal (the loops of the model being given enough
    iterations for the size of the grammar). *)
Theorem convert_to_proper_form_settled fuel g :
  settled g → (length (rules g) < fuel)%nat →
  Forall (fun kv => (length (rules g) + length kv.2 < fuel)%nat) (rules g) →
  convert_to_proper_form ucd fuel g = Val g.
Proof.
  intros Hset Hfuel Hbound. unfold convert_to_proper_form.
  assert (Forall (fun kv => (length (rules g) - 0 + length kv.2 < fuel)%nat) (rules g))
    as Hbound0.
  { eapply Forall_impl; [exact Hbound|]. intros kv Hkv. simpl in *. lia. }
  rewrite (step1_while_settled g 1 Hset fuel 0%nat) by (done || lia).
  cbn [mbind result_bind].
  rewrite (step2_while_settled g 1 Hset fuel 0%nat) by (done || lia).
  done.
Qed.

(** X17.  The whole pipeline changes nothing on a grammar that is already
    in proper form: no production is exactly [[start_variable]] or [['ε']],
    the only productions made of one declared variable are self-loops, and
    every production is settled. *)
Theorem main_settled fuel pick g :
  start_is_unit_rhs g = false →
  (∀ k ps, (k, ps) ∈ rules g → [epsilon] ∉ ps) →
  (∀ A p, (A, p) ∈ unit_pairs g → p = [A]) →
  settled g → (length (rules g) < fuel)%nat →
  Forall (fun kv => (length (rules g) + length kv.2 < fuel)%nat) (rules g) →
  main ucd fuel pick g = Val g.
Proof.
  intros Hstart Heps Hunit Hset Hfuel Hbound. unfold main, change_start_variable.
  rewrite Hstart. cbn [mbind result_bind].
  rewrite remove_epsilon_rules_skip by done. cbn [mbind result_bind].
  unfold remove_unit_rules. rewrite inline_units_self by done.
  cbn [mbind result_bind]. by apply convert_to_proper_form_skip.
Qed.

End Settled.

Lemma cnf_ab_settled : settled cnf_ab.
Proof.
  unfold settled, cnf_ab. cbn [rules].
  repeat (apply Forall_cons; split); try apply Forall_nil; try exact I.
  split; cbn [terminals];
    rewrite elem_of_list_to_set, !elem_of_cons, elem_of_nil; intros H;
    repeat destruct H as [H|H]; done.
Qed.

Lemma cnf_ab_unit_pairs A p : (A, p) ∈ unit_pairs cnf_ab → p = [A].
Proof. intros H. vm_compute in H. by apply elem_of_nil in H. Qed.

Lemma cnf_ab_no_epsilon k ps : (k, ps) ∈ rules cnf_ab → [epsilon] ∉ ps.
Proof.
  unfold cnf_ab. cbn [rules]. rewrite !elem_of_cons, elem_of_nil.
  intros [H|[H|[H|[]]]]; injection H as -> ->;
    rewrite ?elem_of_cons, elem_of_nil; intros Hin;
    repeat destruct Hin as [Hin|Hin]; done.
Qed.

Lemma convert_to_proper_form_settled_witness :
  convert_to_proper_form ascii_only 5 cnf_ab = Val cnf_ab.
Proof.
  apply (convert_to_proper_form_settled ascii_only 5 cnf_ab).
  - apply cnf_ab_settled.
  - simpl. lia.
  - repeat constructor; simpl; lia.
Defined.

Lemma main_settled_witness :
  main ascii_only 5 (fun _ => 0%nat) cnf_ab = Val cnf_ab.
Proof.
  apply (main_settled ascii_only 5 (fun _ => 0%nat) cnf_ab).
  - reflexivity.
  - apply cnf_ab_no_epsilon.
  - apply cnf_ab_unit_pairs.
  - apply cnf_ab_settled.
  - simpl. lia.
  - repeat constructor; simpl; lia.
Defined.

(** ** What the pipeline never takes away *)

Section Frame.

Variable ucd : N → uclass.

Lemma inline_unit_grows pairs g i pair g' :
  inline_unit ucd pairs g i pair = Val g' → grows g g'.
Proof.
  unfold inline_unit. destruct pair as [variable product].
  destruct product as [|p0 rest]; [done|].
  case_bool_decide; [|by intros [= <-]].
  destruct (dict_get (rules g) variable) as [ps|]; [|done].
  destruct (list_remove (p0 :: rest) ps) as [ps'|]; [|done].
  cbv zeta.
  destruct (dict_get (rules (set_rules g (dict_set (rules g) variable ps'))) p0)
    as [body|]; [|done].
  destruct (existsb _ body).
  - intros [= <-]. apply grows_set_rules.
  - intros Hadd%grows_add_rule. etrans; [apply (grows_set_rules g)|exact Hadd].
Qed.

Lemma remove_unit_rules_grows g g' :
  remove_unit_rules ucd g = Val g' → grows g g'.
Proof.
  unfold remove_unit_rules.
  apply (for_enumerate_Val_ind (fun st => grows g st)); [|done].
  intros st i x st' Hst Hbody. etrans; [exact Hst|by eapply inline_unit_grows].
Qed.

Lemma remove_product_grows g variable product g' :
  remove_product g variable product = Val g' → grows g g'.
Proof.
  unfold remove_product. destruct (dict_get (rules g) variable) as [ps|]; [|done].
  destruct (list_remove product ps); [|done]. intros [= <-]. apply grows_set_rules.
Qed.

Lemma assign_product_grows g variable j product g' :
  assign_product g variable j product = Val g' → grows g g'.
Proof.
  unfold assign_product. destruct (dict_get (rules g) variable) as [ps|]; [|done].
  case_bool_decide; [|done]. intros [= <-]. apply grows_set_rules.
Qed.

Lemma shorten_grows variable product st st' :
  shorten ucd variable product st = Val st' → grows st.1 st'.1.
Proof.
  destruct st as [g i]. unfold shorten.
  destruct product as [|p0 [|p1 [|p2 r]]]; try by intros [= <-].
  intros (g1 & H1%remove_product_grows & Hrest)%bind_Val. cbv zeta in Hrest.
  destruct (find_body (rules g1) [p1 :: p2 :: r]) as [var|].
  - apply bind_Val in Hrest as (g2 & H2%grows_add_rule & [= <-]).
    simpl. by etrans.
  - apply bind_Val in Hrest as (g2 & H2%grows_add_rule & Hrest).
    apply bind_Val in Hrest as (g3 & H3%grows_add_rule & [= <-]).
    simpl. etrans; [exact H1|]. by etrans.
Qed.

Lemma isolate_grows variable j t mk st st' :
  isolate ucd variable j t mk st = Val st' → grows st.1 st'.1.
Proof.
  destruct st as [g i]. unfold isolate. cbv zeta.
  destruct (find_body (rules g) [[t]]) as [var|].
  - intros (g1 & H1%assign_product_grows & [= <-])%bind_Val. done.
  - intros (g1 & H1%grows_add_rule & Hrest)%bind_Val.
    apply bind_Val in Hrest as (g2 & H2%assign_product_grows & [= <-]).
    simpl. by etrans.
Qed.

Lemma isolate_terminals_grows variable j product st st' :
  isolate_terminals ucd variable j product st = Val st' → grows st.1 st'.1.
Proof.
  unfold isolate_terminals.
  destruct product as [|p0 [|p1 r]]; try by intros [= <-].
  intros (st1 & H1 & Hrest)%bind_Val.
  assert (grows st.1 st1.1) as Hg1.
  { case_bool_decide; [by eapply isolate_grows|by injection H1 as <-]. }
  apply bind_Val in Hrest as (product & _ & Hrest).
  destruct product as [|q0 [|q1 r']]; try done.
  case_bool_decide.
  - etrans; [exact Hg1|by eapply isolate_grows].
  - by injection Hrest as <-.
Qed.

Lemma step1_for_grows fuel variable :
  ∀ k st st', step1_for ucd fuel variable k st = Val st' → grows st.1 st'.1.
Proof.
  induction fuel as [|fuel IH]; intros k st st'; [done|].
  cbn [step1_for]. destruct (dict_get (rules st.1) variable) as [products|]; [|done].
  destruct (products !! k) as [product|]; [|by intros [= <-]].
  intros (st1 & H1%shorten_grows & H2%IH)%bind_Val. by etrans.
Qed.

Lemma step1_while_grows fuel :
  ∀ index st st', step1_while ucd fuel index st = Val st' → grows st.1 st'.1.
Proof.
  induction fuel as [|fuel IH]; intros index st st'; [done|].
  cbn [step1_while].
  destruct (dict_keys (rules st.1) !! index) as [variable|]; [|by intros [= <-]].
  intros (st1 & H1%step1_for_grows & H2%IH)%bind_Val. by etrans.
Qed.

Lemma step2_for_grows fuel variable :
  ∀ j st st', step2_for ucd fuel variable j st = Val st' → grows st.1 st'.1.
Proof.
  induction fuel as [|fuel IH]; intros j st st'; [done|].
  cbn [step2_for]. destruct (dict_get (rules st.1) variable) as [products|]; [|done].
  destruct (products !! j) as [product|]; [|by intros [= <-]].
  intros (st1 & H1%isolate_terminals_grows & H2%IH)%bind_Val. by etrans.
Qed.

Lemma step2_while_grows fuel :
  ∀ index st st', step2_while ucd fuel index st = Val st' → grows st.1 st'.1.
Proof.
  induction fuel as [|fuel IH]; intros index st st'; [done|].
  cbn [step2_while].
  destruct (dict_keys (rules st.1) !! index) as [variable|]; [|by intros [= <-]].
  intros (st1 & H1%step2_for_grows & H2%IH)%bind_Val. by etrans.
Qed.

Lemma convert_to_proper_form_grows fuel g g' :
  convert_to_proper_form ucd fuel g = Val g' → grows g g'.
Proof.
  unfold convert_to_proper_form.
  intros (st1 & H1%step1_while_grows & Hrest)%bind_Val.
  apply bind_Val in Hrest as (st2 & H2%step2_while_grows & [= <-]).
  simpl in *. by etrans.
Qed.

(** X18.  When [convert_to_proper_form] returns, the start variable is the
    one it was given, and every variable and terminal that was declared
    still is. *)
Theorem convert_to_proper_form_frame fuel g g' :
  convert_to_proper_form ucd fuel g = Val g' →
  start_variable g' = start_variable g ∧
  variables g ⊆ variables g' ∧ terminals g ⊆ terminals g'.
Proof.
  unfold convert_to_proper_form.
  intros (st1 & H1%step1_while_grows & Hrest)%bind_Val.
  apply bind_Val in Hrest as (st2 & H2%step2_while_grows & [= <-]).
  simpl in H1. destruct H1 as (Hs1 & Hv1 & Ht1), H2 as (Hs2 & Hv2 & Ht2).
  split; [congruence|]. split; by etrans.
Qed.

Lemma change_start_variable_frame g g' :
  change_start_variable ucd g = Val g' →
  start_variable g' = (if start_is_unit_rhs g then s "S0" else start_variable g) ∧
  variables g ⊆ variables g' ∧ terminals g ⊆ terminals g'.
Proof.
  unfold change_start_variable. destruct (start_is_unit_rhs g); [|by intros [= <-]].
  intros (g1 & (Hs & Hv & Ht)%grows_add_rule & Hsort)%bind_Val.
  unfold sort_rules in Hsort. simpl in Hsort.
  destruct (dict_get (rules g1) (s "S0")); [|done]. by injection Hsort as <-.
Qed.

(** X19.  When the pipeline returns, the start variable is ['S0'] if some
    production of the input was exactly [[start_variable]], and the start
    variable of the input otherwise; no variable and no terminal has been
    removed from the two sets. *)
Theorem main_frame fuel pick g g' :
  main ucd fuel pick g = Val g' →
  start_variable g' = (if start_is_unit_rhs g then s "S0" else start_variable g) ∧
  variables g ⊆ variables g' ∧ terminals g ⊆ terminals g'.
Proof.
  unfold main.
  intros (g1 & (Hs1 & Hv1 & Ht1)%change_start_variable_frame & Hrest)%bind_Val.
  apply bind_Val in Hrest
    as (g2 & (Hs2 & Hv2 & Ht2)%remove_epsilon_rules_grows & Hrest).
  apply bind_Val in Hrest
    as (g3 & (Hs3 & Hv3 & Ht3)%remove_unit_rules_grows
           & (Hs4 & Hv4 & Ht4)%convert_to_proper_form_grows).
  split; [congruence|]. split; repeat (etrans; [eassumption|]); done.
Qed.

End Frame.

Lemma convert_to_proper_form_frame_witness :
  start_variable two_triples_out = start_variable two_triples ∧
  variables two_triples ⊆ variables two_triples_out ∧
  terminals two_triples ⊆ terminals two_triples_out.
Proof.
  apply (convert_to_proper_form_frame ascii_only 20 two_triples two_triples_out).
  vm_compute. reflexivity.
Defined.

Lemma main_frame_witness :
  start_variable anbn_cnf = (if start_is_unit_rhs anbn then s "S0" else start_variable anbn) ∧
  variables anbn ⊆ variables anbn_cnf ∧ terminals anbn ⊆ terminals anbn_cnf.
Proof.
  apply (main_frame ascii_only 20 (fun _ => 0%nat) anbn anbn_cnf).
  apply main_anbn.
Defined.

(** ** [__init__] and [__repr__] *)

Lemma dict_get_None d k : k ∉ dict_keys d → dict_get d k = None.
Proof.
  intros Hk. destruct (dict_get d k) as [ps|] eqn:Hget; [|done].
  by apply dict_get_Some_key in Hget.
Qed.

(** X20.  The constructor raises [KeyError] when the start variable is no
    key of [rules]; otherwise it returns a grammar with that start
    variable, whose rule comes first, with the two lists as sets and with
    the productions of every key as given. *)
Theorem init_spec vars terms rs start :
  (start ∉ dict_keys rs →
   init vars terms rs start
   = Exc KeyError (CFG (list_to_set vars) (list_to_set terms) rs start)) ∧
  (start ∈ dict_keys rs →
   ∃ g ps, init vars terms rs start = Val g ∧
           start_variable g = start ∧
           head (rules g) = Some (start, ps) ∧
           (∀ x, x ∈ variables g ↔ x ∈ vars) ∧
           (∀ x, x ∈ terminals g ↔ x ∈ terms) ∧
           (∀ k, dict_get (rules g) k = dict_get rs k)).
Proof.
  unfold init, sort_rules. cbn [rules start_variable]. split.
  - intros Hk. by rewrite dict_get_None.
  - intros [ps Hps]%dict_get_key. rewrite Hps. eexists _, ps. split; [done|].
    cbn [set_rules start_variable rules variables terminals].
    split; [done|]. split; [done|].
    split; [intros x; apply elem_of_list_to_set|].
    split; [intros x; apply elem_of_list_to_set|].
    intros k. simpl. destruct (decide (start = k)) as [<-|Hne]; [done|].
    by apply dict_get_filter_ne.
Qed.

Lemma init_spec_witness :
  ∃ g ps, init [s "S"; s "S"] [s "a"] [(s "A", [[s "a"]]); (s "S", [[s "A"]])] (s "S")
          = Val g ∧
          start_variable g = s "S" ∧
          head (rules g) = Some (s "S", ps) ∧
          (∀ x, x ∈ variables g ↔ x ∈ [s "S"; s "S"]) ∧
          (∀ x, x ∈ terminals g ↔ x ∈ [s "a"]) ∧
          (∀ k, dict_get (rules g) k
                = dict_get [(s "A", [[s "a"]]); (s "S", [[s "A"]])] k).
Proof.
  destruct (init_spec [s "S"; s "S"] [s "a"]
              [(s "A", [[s "a"]]); (s "S", [[s "A"]])] (s "S")) as [_ H].
  apply H. apply (bool_decide_unpack _). vm_compute. exact I.
Defined.

(** X21.  After [sort_rules], the text that [__repr__] gives begins with
    the line of the start variable. *)
Theorem repr_start_first g g' ps :
  dict_get (rules g) (start_variable g) = Some ps →
  sort_rules g = Val g' →
  repr_line (start_variable g, ps) `prefix_of` repr g'.
Proof.
  unfold sort_rules. intros ->. intros [= <-]. unfold repr. cbn [rules set_rules].
  rewrite fmap_cons. cbn [join].
  destruct (repr_line <$> filter _ (rules g)) as [|l ls]; [done|].
  by apply prefix_app_r.
Qed.

Lemma repr_start_first_witness :
  repr_line (s "S", [[s "A"]])
    `prefix_of` repr (CFG ∅ ∅ [(s "S", [[s "A"]]); (s "A", [[s "a"]])] (s "S")).
Proof.
  apply (repr_start_first
           (CFG ∅ ∅ [(s "A", [[s "a"]]); (s "S", [[s "A"]])] (s "S"))
           (CFG ∅ ∅ [(s "S", [[s "A"]]); (s "A", [[s "a"]])] (s "S"))
           [[s "A"]]); reflexivity.
Defined.

(** ** [replace_products] *)



(** ** [remove_unit_rules]: how it fails *)

Section UnitRulesErrors.

Variable ucd : N → uclass.

Lemma no_earlier_pair (variable : str) (body : list production) :
  existsb (fun item => bool_decide ((variable, item) ∈ @nil (str * production))) body
  = false.
Proof.
  induction body as [|item body IH]; [done|]. cbn [existsb]. rewrite IH.
  rewrite bool_decide_eq_false_2; [done|]. apply not_elem_of_nil.
Qed.

Lemma remove_unit_rules_first g A B rest :
  dict_wf (rules g) → unit_pairs g = (A, [B]) :: rest → A ≠ B →
  ∃ ps ps',
    dict_get (rules g) A = Some ps ∧ list_remove [B] ps = Some ps' ∧
    remove_unit_rules ucd g
    = match dict_get (rules g) B with
      | None => Exc KeyError (set_rules g (dict_set (rules g) A ps'))
      | Some body =>
          g2 ← add_rule ucd (set_rules g (dict_set (rules g) A ps')) A body;
          for_enumerate (inline_unit ucd (unit_pairs g)) 1 g2 rest
      end.
Proof.
  intros Hwf Hpairs Hne.
  assert ((A, [B]) ∈ unit_pairs g) as Hin by (rewrite Hpairs; apply list_elem_of_here).
  apply unit_pairs_spec in Hin as (B' & ps & [= <-] & HB & Hin & Hp).
  apply (dict_elem_of_get _ _ _ Hwf) in Hin.
  destruct (list_remove_Some [B] ps Hp) as [ps' Hrm].
  exists ps, ps'. split; [done|]. split; [done|].
  unfold remove_unit_rules. rewrite Hpairs at 2.
  cbn [for_enumerate inline_unit].
  rewrite bool_decide_eq_true_2 by congruence. rewrite Hin, Hrm. cbv zeta.
  cbn [rules set_rules]. rewrite dict_get_set_ne by done.
  destruct (dict_get (rules g) B) as [body|]; [|done].
  change (take 0 (unit_pairs g)) with (@nil (str * production)).
  by rewrite no_earlier_pair.
Qed.

(** X26.  When the first unit production [A → B] (with [B] other than
    [A]) names a declared variable [B] that has no entry in [rules],
    [remove_unit_rules] raises [KeyError] after it has removed [A → B]:
    the grammar is left without that production. *)
Theorem remove_unit_rules_missing_entry g A B rest :
  dict_wf (rules g) → unit_pairs g = (A, [B]) :: rest → A ≠ B →
  B ∉ dict_keys (rules g) →
  ∃ ps ps',
    dict_get (rules g) A = Some ps ∧ list_remove [B] ps = Some ps' ∧
    remove_unit_rules ucd g = Exc KeyError (set_rules g (dict_set (rules g) A ps')).
Proof.
  intros Hwf Hpairs Hne HB.
  destruct (remove_unit_rules_first g A B rest Hwf Hpairs Hne)
    as (ps & ps' & Hps & Hrm & Hrun).
  exists ps, ps'. split; [done|]. split; [done|].
  by rewrite Hrun, dict_get_None.
Qed.

(** X27.  When the first unit production is [A → B] (with [B] other than
    [A], and [B] a key of [rules]) and the name [A] does not pass the check
    of [add_rule], [remove_unit_rules] raises [InvalidRule] after it has
    removed [A → B]. *)
Theorem remove_unit_rules_invalid_name g A B rest :
  dict_wf (rules g) → unit_pairs g = (A, [B]) :: rest → A ≠ B →
  B ∈ dict_keys (rules g) → re_match_lhs ucd A = false →
  ∃ ps ps',
    dict_get (rules g) A = Some ps ∧ list_remove [B] ps = Some ps' ∧
    remove_unit_rules ucd g
    = Exc InvalidRule (set_rules g (dict_set (rules g) A ps')).
Proof.
  intros Hwf Hpairs Hne HB HA.
  destruct (remove_unit_rules_first g A B rest Hwf Hpairs Hne)
    as (ps & ps' & Hps & Hrm & Hrun).
  exists ps, ps'. split; [done|]. split; [done|].
  rewrite Hrun. destruct (dict_get_key _ _ HB) as [body ->].
  by rewrite add_rule_invalid.
Qed.

End UnitRulesErrors.

Lemma remove_unit_rules_missing_entry_witness :
  ∃ ps ps',
    dict_get [(s "S", [[s "A"]; [s "a"]])] (s "S") = Some ps ∧
    list_remove [s "A"] ps = Some ps' ∧
    remove_unit_rules ascii_only
      (CFG (list_to_set [s "S"; s "A"]) (list_to_set [s "a"])
           [(s "S", [[s "A"]; [s "a"]])] (s "S"))
    = Exc KeyError
          (set_rules
             (CFG (list_to_set [s "S"; s "A"]) (list_to_set [s "a"])
                  [(s "S", [[s "A"]; [s "a"]])] (s "S"))
             (dict_set [(s "S", [[s "A"]; [s "a"]])] (s "S") ps')).
Proof.
  apply (remove_unit_rules_missing_entry ascii_only
           (CFG (list_to_set [s "S"; s "A"]) (list_to_set [s "a"])
                [(s "S", [[s "A"]; [s "a"]])] (s "S"))
           (s "S") (s "A") []).
  - apply (bool_decide_unpack _). vm_compute. exact I.
  - vm_compute. reflexivity.
  - discriminate.
  - apply (bool_decide_unpack _). vm_compute. exact I.
Defined.

Lemma remove_unit_rules_invalid_name_witness :
  ∃ ps ps',
    dict_get [(s "s", [[s "A"]]); (s "A", [[s "a"]])] (s "s") = Some ps ∧
    list_remove [s "A"] ps = Some ps' ∧
    remove_unit_rules ascii_only
      (CFG (list_to_set [s "s"; s "A"]) (list_to_set [s "a"])
           [(s "s", [[s "A"]]); (s "A", [[s "a"]])] (s "s"))
    = Exc InvalidRule
          (set_rules
             (CFG (list_to_set [s "s"; s "A"]) (list_to_set [s "a"])
                  [(s "s", [[s "A"]]); (s "A", [[s "a"]])] (s "s"))
             (dict_set [(s "s", [[s "A"]]); (s "A", [[s "a"]])] (s "s") ps')).
Proof.
  apply (remove_unit_rules_invalid_name ascii_only
           (CFG (list_to_set [s "s"; s "A"]) (list_to_set [s "a"])
                [(s "s", [[s "A"]]); (s "A", [[s "a"]])] (s "s"))
           (s "s") (s "A") []).
  - apply (bool_decide_unpack _). vm_compute. exact I.
  - vm_compute. reflexivity.
  - discriminate.
  - apply (bool_decide_unpack _). vm_compute. exact I.
  - reflexivity.
Defined.

Lemma change_start_variable_nodup_witness :
  leaves_nodup (change_start_variable ascii_only grammar_start_reused).
Proof.
  apply (change_start_variable_nodup ascii_only grammar_start_reused).
  apply (bool_decide_unpack _). vm_compute. exact I.
Defined.

Lemma remove_unit_rules_nodup_witness :
  leaves_nodup (remove_unit_rules ascii_only unit_chain).
Proof.
  apply (remove_unit_rules_nodup ascii_only unit_chain).
  apply (bool_decide_unpack _). vm_compute. exact I.
Defined.
